(** * Screen-mirroring management system: overlay surfaces, address list, shell

    A shallow embedding of [code.py]: the drag/resize handlers of
    [DragResizeWidget] and of its three concrete subclasses, the reading
    and writing of the address list in [config.ini], the classification
    of the selected media file and the stacking done by [FullScreenApp].

    Conventions.
    - Python integers are unbounded, so coordinates and sizes are [Z].
    - A Python [str] is a sequence of Unicode code points: [str] is
      [list N].  [py] turns an ASCII literal into a [str].
    - A handler that can raise returns the widget as it was left together
      with the exception, if one was raised: Python keeps the attribute
      updates made before the [raise].
    - [hook_calls] is instrumentation, it counts the entries into
      [update_content_geometry]; no handler reads it.
    - Of Qt, [move], [resize] and [setGeometry] store what they are given,
      and [stackUnder] reorders the children of the parent; of Python's
      library, text files translate line ends and [os.path.splitext] cuts
      at the last dot of the last path component.  Window flags, style
      sheets, [show()] and [event.accept()] change nothing that the
      handlers read and are left out. *)

From Stdlib Require Import ZArith NArith Lia String Ascii.
From stdpp Require Import base decidable option list numbers gmap.

Local Open Scope Z_scope.
#[local] Set Warnings "-clear-no-such-hyp".

(** ** Qt values used by the handlers *)

Record QPoint := mkQPoint { pt_x : Z; pt_y : Z }.

Record QRect := mkQRect { rx : Z; ry : Z; rw : Z; rh : Z }.

(** [QPoint.__sub__] *)
Definition QPoint_sub (a b : QPoint) : QPoint :=
  mkQPoint (pt_x a - pt_x b) (pt_y a - pt_y b).

Inductive MouseButton := LeftButton | RightButton | MiddleButton | OtherButton.

(** What the handlers read from a [QMouseEvent]: [button()], [pos()] (local
    coordinates) and [globalPosition().toPoint()] (screen coordinates,
    already rounded to integers). *)
Record QMouseEvent := mkQMouseEvent {
  button : MouseButton;
  pos : QPoint;
  globalPosition_toPoint : QPoint
}.

Definition is_LeftButton (b : MouseButton) : bool :=
  match b with LeftButton => true | _ => false end.

(** ** The widget classes *)

Inductive widget_class := DragResizeWidget | BrowserWidget | ImageWidget | VideoWidget.

Inductive exn := NotImplementedError.

(** The attributes of a [DragResizeWidget] instance.  [payload_geometry] is
    the geometry of the inner payload ([browser], [label], [video_widget]);
    [None] as long as no [setGeometry] was done on it. *)
Record widget := mkWidget {
  cls : widget_class;
  x : Z;
  y : Z;
  width : Z;
  height : Z;
  dragging : bool;
  resizing : bool;
  drag_position : QPoint;
  payload_geometry : option QRect;
  hook_calls : nat
}.

Definition result : Type := widget * option exn.

Definition move (w : widget) (nx ny : Z) : widget :=
  mkWidget (cls w) nx ny (width w) (height w) (dragging w) (resizing w)
           (drag_position w) (payload_geometry w) (hook_calls w).

Definition resize (w : widget) (nw nh : Z) : widget :=
  mkWidget (cls w) (x w) (y w) nw nh (dragging w) (resizing w)
           (drag_position w) (payload_geometry w) (hook_calls w).

Definition set_dragging (w : widget) (b : bool) : widget :=
  mkWidget (cls w) (x w) (y w) (width w) (height w) b (resizing w)
           (drag_position w) (payload_geometry w) (hook_calls w).

Definition set_resizing (w : widget) (b : bool) : widget :=
  mkWidget (cls w) (x w) (y w) (width w) (height w) (dragging w) b
           (drag_position w) (payload_geometry w) (hook_calls w).

Definition set_drag_position (w : widget) (p : QPoint) : widget :=
  mkWidget (cls w) (x w) (y w) (width w) (height w) (dragging w) (resizing w)
           p (payload_geometry w) (hook_calls w).

(** [payload.setGeometry(a, b, c, d)] *)
Definition setGeometry (w : widget) (r : QRect) : widget :=
  mkWidget (cls w) (x w) (y w) (width w) (height w) (dragging w) (resizing w)
           (drag_position w) (Some r) (hook_calls w).

Definition enter_hook (w : widget) : widget :=
  mkWidget (cls w) (x w) (y w) (width w) (height w) (dragging w) (resizing w)
           (drag_position w) (payload_geometry w) (S (hook_calls w)).

(** The rectangle every subclass passes to [setGeometry]:
    [(5, 5, self.width()-10, self.height()-10)]. *)
Definition inset_rect (w : widget) : QRect :=
  mkQRect 5 5 (width w - 10) (height w - 10).

(** The override of [update_content_geometry] in [BrowserWidget],
    [ImageWidget] and [VideoWidget]: the three bodies differ in the name of
    the payload attribute only. *)
Definition subclass_update_content_geometry (w : widget) : widget :=
  let w := enter_hook w in
  setGeometry w (inset_rect w).

(** [self.update_content_geometry()], dispatched on the class of [self]:
    the method of the base class raises. *)
Definition update_content_geometry (w : widget) : result :=
  match cls w with
  | DragResizeWidget => (enter_hook w, Some NotImplementedError)
  | BrowserWidget | ImageWidget | VideoWidget =>
      (subclass_update_content_geometry w, None)
  end.

(** [DragResizeWidget.__init__]: [resize(800, 600)], both flags false,
    [drag_position = QPoint()].  A new widget sits at (0, 0). *)
Definition DragResizeWidget_init (c : widget_class) : widget :=
  mkWidget c 0 0 800 600 false false (mkQPoint 0 0) None 0.

(** The constructors of the subclasses.  [BrowserWidget] and [ImageWidget]
    end with [self.update_content_geometry()]; [VideoWidget] does the
    [setGeometry] itself and does not call the method. *)
Definition BrowserWidget_init : widget :=
  subclass_update_content_geometry (DragResizeWidget_init BrowserWidget).

Definition ImageWidget_init : widget :=
  subclass_update_content_geometry (DragResizeWidget_init ImageWidget).

Definition VideoWidget_init : widget :=
  let w := DragResizeWidget_init VideoWidget in
  setGeometry w (inset_rect w).

Definition construct (c : widget_class) : widget :=
  match c with
  | DragResizeWidget => DragResizeWidget_init DragResizeWidget
  | BrowserWidget => BrowserWidget_init
  | ImageWidget => ImageWidget_init
  | VideoWidget => VideoWidget_init
  end.

(** ** The handlers of [DragResizeWidget] *)

Definition is_on_border (w : widget) (p : QPoint) : bool :=
  let margin := 10 in
  (pt_x p >=? width w - margin) && (pt_y p >=? height w - margin).

Definition mousePressEvent (w : widget) (event : QMouseEvent) : widget :=
  if is_LeftButton (button event) then
    if is_on_border w (pos event) then
      set_resizing w true
    else
      set_drag_position (set_dragging w true) (globalPosition_toPoint event)
  else w.

Definition mouseMoveEvent (w : widget) (event : QMouseEvent) : result :=
  if dragging w then
    let delta := QPoint_sub (globalPosition_toPoint event) (drag_position w) in
    let w := move w (x w + pt_x delta) (y w + pt_y delta) in
    (set_drag_position w (globalPosition_toPoint event), None)
  else if resizing w then
    let new_width := Z.max 100 (pt_x (pos event)) in
    let new_height := Z.max 100 (pt_y (pos event)) in
    let w := resize w new_width new_height in
    update_content_geometry w
  else (w, None).

Definition mouseReleaseEvent (w : widget) (event : QMouseEvent) : widget :=
  set_resizing (set_dragging w false) false.

(** ** Sequences of pointer events *)

Inductive pointer_event :=
| Down (e : QMouseEvent)
| Move (e : QMouseEvent)
| Up (e : QMouseEvent).

Definition handle (w : widget) (ev : pointer_event) : result :=
  match ev with
  | Down e => (mousePressEvent w e, None)
  | Move e => mouseMoveEvent w e
  | Up e => (mouseReleaseEvent w e, None)
  end.

(** The events are delivered one after the other; an exception that leaves
    a handler ends the run, the widget staying as the handler left it. *)
Fixpoint run (w : widget) (evs : list pointer_event) : result :=
  match evs with
  | [] => (w, None)
  | ev :: evs' =>
      match handle w ev with
      | (w', None) => run w' evs'
      | (w', Some e) => (w', Some e)
      end
  end.

(** A run on a freshly constructed widget. *)
Definition run_fresh (c : widget_class) (evs : list pointer_event) : result :=
  run (construct c) evs.

(** The three interaction states of the specification, read off the two
    flags the way [mouseMoveEvent] tests them: [dragging] first. *)
Inductive interaction_state := Idle | Dragging | Resizing.

Definition interactionState (w : widget) : interaction_state :=
  if dragging w then Dragging else if resizing w then Resizing else Idle.

Definition left_at (lx ly gx gy : Z) : QMouseEvent :=
  mkQMouseEvent LeftButton (mkQPoint lx ly) (mkQPoint gx gy).

(** ** Python strings *)

Definition str : Type := list N.

Definition py (s : string) : str := N_of_ascii <$> list_ascii_of_string s.
Arguments py s%_string.

Definition LF : N := 10.
Definition CR : N := 13.

(** [str.isspace] on one code point (CPython's [_PyUnicode_IsWhitespace]). *)
Definition isspace (c : N) : bool :=
  ((9 <=? c) && (c <=? 13) || (28 <=? c) && (c <=? 32)
   || (c =? 133) || (c =? 160) || (c =? 5760)
   || (8192 <=? c) && (c <=? 8202)
   || (c =? 8232) || (c =? 8233) || (c =? 8239) || (c =? 8287) || (c =? 12288))%N.

Fixpoint lstrip (s : str) : str :=
  match s with
  | [] => []
  | c :: t => if isspace c then lstrip t else s
  end.

Definition rstrip (s : str) : str := reverse (lstrip (reverse s)).

(** [str.strip()] *)
Definition strip (s : str) : str := rstrip (lstrip s).

(** ** Text files

    The platform fixes [os.linesep] and the separators of [os.path]. *)
Inductive platform := Posix | Nt.

Definition linesep (pf : platform) : str :=
  match pf with Posix => [LF] | Nt => [CR; LF] end.

(** Reading in text mode with the default [newline=None]: ["\r\n"] and a
    lone ["\r"] are handed to the program as ["\n"].  [pendingcr] tells
    that the previous character was a ["\r"]. *)
Fixpoint universal_newlines (pendingcr : bool) (s : str) : str :=
  match s with
  | [] => []
  | c :: t =>
      if (c =? CR)%N then LF :: universal_newlines true t
      else if (c =? LF)%N then
        if pendingcr then universal_newlines false t
        else LF :: universal_newlines false t
      else c :: universal_newlines false t
  end.

(** [for line in file]: the lines, each with its ["\n"]; a last line without
    ["\n"] is yielded too when it is not empty.  [cur] is the line read so
    far, in reverse. *)
Fixpoint split_lines (cur : str) (s : str) : list str :=
  match s with
  | [] => match cur with [] => [] | _ => [reverse cur] end
  | c :: t =>
      if (c =? LF)%N then reverse (c :: cur) :: split_lines [] t
      else split_lines (c :: cur) t
  end.

Definition file_lines (content : str) : list str :=
  split_lines [] (universal_newlines false content).

(** Writing in text mode with [newline=None]: every ["\n"] is written as
    [os.linesep]. *)
Definition write_translate (pf : platform) (s : str) : str :=
  c ← s; if (c =? LF)%N then linesep pf else [c].

(** ** The address list in [config.ini]

    The file is [None] when it does not exist ([os.path.exists]) and its
    decoded text otherwise. *)

(** The body of the [for] loop of [read_urls_from_config], on the local
    variables [urls] and [seen]. *)
Definition read_step (st : list str * gset str) (line : str) : list str * gset str :=
  let url := strip line in
  if bool_decide (url ≠ []) && bool_decide (url ∉ st.2)
  then (st.1 ++ [url], {[url]} ∪ st.2)
  else st.

Definition read_lines (lines : list str) : list str * gset str :=
  foldl read_step ([], ∅) lines.

Definition read_urls_from_config (file : option str) : list str :=
  match file with
  | Some content => (read_lines (file_lines content)).1
  | None => []
  end.

(** Opening with mode ["a"] creates a missing file. *)
Definition append_text (pf : platform) (file : option str) (s : str) : option str :=
  Some (default [] file ++ write_translate pf s).

Definition write_url_to_config (pf : platform) (file : option str) (url : str) : option str :=
  let urls := read_urls_from_config file in
  if bool_decide (url ∉ urls) then append_text pf file (url ++ [LF]) else file.

(** [UrlSelectionDialog]: the file, the attribute [urls] and the items of
    [url_combobox]. *)
Record dialog := mkDialog {
  config : option str;
  urls : list str;
  combobox_items : list str
}.

(** The part of [setup_ui] that fills the dialog. *)
Definition setup_ui (file : option str) : dialog :=
  let urls := read_urls_from_config file in
  mkDialog file urls urls.

(** [add_url]; [new_url] and [ok] are what [QInputDialog.getText] returned. *)
Definition add_url (pf : platform) (d : dialog) (new_url : str) (ok : bool) : dialog :=
  if ok && bool_decide (new_url ≠ []) then
    let file := write_url_to_config pf (config d) new_url in
    if bool_decide (new_url ∉ urls d)
    then mkDialog file (urls d ++ [new_url]) (combobox_items d ++ [new_url])
    else mkDialog file (urls d) (combobox_items d)
  else d.

(** The words of the specification for [listAll]: entries are the lines
    without surrounding white space, blank entries are skipped, and of equal
    entries only the first stays. *)
Fixpoint first_occurrences (l : list str) : list str :=
  match l with
  | [] => []
  | u :: t => u :: filter (λ v, v ≠ u) (first_occurrences t)
  end.

Definition listAll_spec (lines : list str) : list str :=
  first_occurrences (filter (λ u, u ≠ []) (strip <$> lines)).

(** ** Classification of the media file *)

(** [str.rfind] of one character: the index of its last occurrence, or -1.
    [i] is the index of the head of [p]. *)
Fixpoint rfind_from (i : Z) (p : str) (c : N) : Z :=
  match p with
  | [] => -1
  | d :: t =>
      let r := rfind_from (i + 1) t c in
      if r >=? 0 then r else if (d =? c)%N then i else -1
  end.

Definition rfind (p : str) (c : N) : Z := rfind_from 0 p c.

(** [p[a:b]] for [0 <= a] *)
Definition slice (p : str) (a b : Z) : str :=
  take (Z.to_nat (b - a)) (drop (Z.to_nat a) p).

(** [genericpath._splitext]: the extension starts at the last dot of the
    last path component, unless only dots precede it there. *)
Definition genericpath_splitext (p : str) (sep : N) (altsep : option N) (extsep : N)
  : str * str :=
  let sepIndex := rfind p sep in
  let sepIndex :=
    match altsep with
    | Some a => Z.max sepIndex (rfind p a)
    | None => sepIndex
    end in
  let dotIndex := rfind p extsep in
  if (dotIndex >? sepIndex)
     && existsb (λ c, negb (c =? extsep)%N) (slice p (sepIndex + 1) dotIndex)
  then (take (Z.to_nat dotIndex) p, drop (Z.to_nat dotIndex) p)
  else (p, []).

(** [os.path.splitext]: [posixpath] uses ['/'], [ntpath] uses ['\\'] and
    ['/']; the extension separator is ['.']. *)
Definition splitext (pf : platform) (p : str) : str * str :=
  match pf with
  | Posix => genericpath_splitext p 47 None 46
  | Nt => genericpath_splitext p 92 (Some 47%N) 46
  end.

Definition is_ascii (c : N) : bool := (c <? 128)%N.

Definition ascii_lower_char (c : N) : N :=
  if ((65 <=? c) && (c <=? 90))%N then (c + 32)%N else c.

(** [str.lower()].  On a string of ASCII characters it maps ['A'..'Z'] to
    ['a'..'z']; on any other string it is Unicode's lower-casing, which is
    kept abstract as [unicode_lower]. *)
Definition lower (unicode_lower : str → str) (s : str) : str :=
  if forallb is_ascii s then ascii_lower_char <$> s else unicode_lower s.

Definition image_extensions : gset str :=
  {[ py ".png"; py ".jpg"; py ".jpeg"; py ".bmp" ]}.

Definition video_extensions : gset str :=
  {[ py ".mp4"; py ".avi"; py ".mkv" ]}.

(** [setup_media]; [path] is what [QFileDialog.getOpenFileName] returned,
    the empty string when the user cancelled. *)
Definition setup_media (pf : platform) (unicode_lower : str → str) (path : str)
  : option widget :=
  if bool_decide (path = []) then None
  else
    let ext := lower unicode_lower (splitext pf path).2 in
    if bool_decide (ext ∈ image_extensions) then
      Some (move ImageWidget_init 50 50)
    else if bool_decide (ext ∈ video_extensions) then
      Some (move VideoWidget_init 50 50)
    else None.

(** ** The shell *)

(** The children of the [FullScreenApp] window. *)
Inductive child := MediaChild | DialogChild | BrowserChild.

Global Instance child_eq_dec : EqDecision child.
Proof. solve_decision. Defined.

(** Qt keeps the children of a widget in stacking order, bottom first; a
    new child is put on top. *)
Definition add_child (c : child) (l : list child) : list child := l ++ [c].

Fixpoint insert_before (a b : child) (l : list child) : list child :=
  match l with
  | [] => []
  | c :: t => if decide (c = b) then a :: c :: t else c :: insert_before a b t
  end.

(** [a.stackUnder(b)] on the children [l] of their common parent: [a] is
    moved to the place just below [b]; nothing happens unless both are
    children and differ. *)
Definition stackUnder (a b : child) (l : list child) : list child :=
  if bool_decide (a ≠ b ∧ a ∈ l ∧ b ∈ l)
  then insert_before a b (filter (λ c, c ≠ a) l)
  else l.

Inductive Key := Key_F12 | Key_F5 | Key_other.

Record FullScreenApp := mkApp {
  media_window : option widget;
  browser_window : option widget;
  children : list child;
  stack_calls : nat;
  closed : bool;
  reloads : nat
}.

(** [setup_browser]; [accepted] is [Some url] when the dialog was accepted,
    [url] being the current text of the combo box.  The dialog is a child
    of the shell as well. *)
Definition setup_browser (accepted : option str) : option widget :=
  match accepted with
  | None => None
  | Some url => Some (move BrowserWidget_init 150 150)
  end.

Definition adjust_window_stack (app : FullScreenApp) : FullScreenApp :=
  match media_window app, browser_window app with
  | Some _, Some _ =>
      mkApp (media_window app) (browser_window app)
            (stackUnder MediaChild BrowserChild (children app))
            (S (stack_calls app)) (closed app) (reloads app)
  | _, _ => app
  end.

(** [FullScreenApp.__init__] *)
Definition FullScreenApp_init (pf : platform) (unicode_lower : str → str)
    (path : str) (accepted : option str) : FullScreenApp :=
  let media := setup_media pf unicode_lower path in
  let kids := match media with Some _ => add_child MediaChild [] | None => [] end in
  let kids := add_child DialogChild kids in
  let browser := setup_browser accepted in
  let kids := match browser with Some _ => add_child BrowserChild kids | None => kids end in
  adjust_window_stack (mkApp media browser kids 0 false 0).

Definition keyPressEvent (app : FullScreenApp) (k : Key) : FullScreenApp :=
  match k with
  | Key_F12 =>
      mkApp (media_window app) (browser_window app) (children app)
            (stack_calls app) true (reloads app)
  | Key_F5 =>
      match browser_window app with
      | Some _ =>
          mkApp (media_window app) (browser_window app) (children app)
                (stack_calls app) (closed app) (S (reloads app))
      | None => app
      end
  | Key_other => app
  end.

(** A pointer event on one of the two surfaces: only that surface changes. *)
Inductive surface := MediaSurface | ContentSurface.

Definition deliver (app : FullScreenApp) (s : surface) (ev : pointer_event)
  : FullScreenApp :=
  match s with
  | MediaSurface =>
      mkApp ((λ w, (handle w ev).1) <$> media_window app) (browser_window app)
            (children app) (stack_calls app) (closed app) (reloads app)
  | ContentSurface =>
      mkApp (media_window app) ((λ w, (handle w ev).1) <$> browser_window app)
            (children app) (stack_calls app) (closed app) (reloads app)
  end.

Inductive shell_event :=
| KeyPress (k : Key)
| Pointer (s : surface) (ev : pointer_event).

Definition shell_step (app : FullScreenApp) (e : shell_event) : FullScreenApp :=
  match e with
  | KeyPress k => keyPressEvent app k
  | Pointer s ev => deliver app s ev
  end.

(** ** Event sequences in which no press interrupts an interaction

    [active] tells that a press with the left button has not been followed
    by a release yet; such a press may then not arrive again. *)
Fixpoint presses_from_idle (active : bool) (evs : list pointer_event) : bool :=
  match evs with
  | [] => true
  | Down e :: t =>
      if is_LeftButton (button e)
      then negb active && presses_from_idle true t
      else presses_from_idle active t
  | Move _ :: t => presses_from_idle active t
  | Up _ :: t => presses_from_idle false t
  end.

Definition exclusive (w : widget) : Prop := dragging w && resizing w = false.

(** Two strings are equal under case folding when lower-casing makes them
    equal. *)
Definition caseless_eq (unicode_lower : str → str) (a b : str) : Prop :=
  lower unicode_lower a = lower unicode_lower b.

(** How often [u] occurs in [l]. *)
Definition occurrences (u : str) (l : list str) : nat :=
  length (filter (λ v, v = u) l).

(** The classes that implement [update_content_geometry]. *)
Definition concrete (c : widget_class) : Prop := c ≠ DragResizeWidget.

(** ** Further notions used in the statements *)

(** No press with the left button among the events. *)
Definition no_left_press (evs : list pointer_event) : bool :=
  forallb (λ ev, match ev with
                 | Down e => negb (is_LeftButton (button e))
                 | _ => true
                 end) evs.

(** The global pointer position of the last of the events [es], and [g]
    when there is none. *)
Definition last_global (g : QPoint) (es : list QMouseEvent) : QPoint :=
  default g (globalPosition_toPoint <$> last es).

(** A text that is empty or ends with a line end. *)
Definition terminated (c : str) : bool :=
  match last c with
  | None => true
  | Some d => ((d =? LF) || (d =? CR))%N
  end.

(** An address without surprises: not empty, no white space at its ends
    and no line break inside. *)
Definition plain (a : str) : Prop :=
  a ≠ [] ∧ strip a = a ∧ (CR ∉ a) ∧ (LF ∉ a).

(** [add_url] for one result of the input dialog after the other. *)
Definition add_urls (pf : platform) (d : dialog) (inputs : list (str * bool)) : dialog :=
  foldl (λ d i, add_url pf d i.1 i.2) d inputs.

(** What the input dialog returns as a rule: it was cancelled, or the text
    is empty, or the text is a plain address. *)
Definition usual_input (i : str * bool) : Prop :=
  i.2 = false ∨ i.1 = [] ∨ plain i.1.

(** The characters that separate the components of a path. *)
Definition is_sep (pf : platform) (c : N) : bool :=
  match pf with
  | Posix => (c =? 47)%N
  | Nt => ((c =? 92) || (c =? 47))%N
  end.

(** The part of a path in front of the file name: nothing, or a text that
    ends with a separator. *)
Definition dir_prefix (pf : platform) (pre : str) : bool :=
  match last pre with
  | None => true
  | Some c => is_sep pf c
  end.

(** The characters of a file name: no separators. *)
Definition file_name (pf : platform) (name : str) : bool :=
  forallb (λ c, negb (is_sep pf c)) name.

(** Some character of [stem] is not a dot. *)
Definition has_non_dot (stem : str) : bool :=
  existsb (λ c, negb (c =? 46)%N) stem.

(** What holds of a surface of the shell at all times. *)
Definition well_formed (w : widget) : Prop :=
  concrete (cls w) ∧ payload_geometry w = Some (inset_rect w) ∧
  100 ≤ width w ∧ 100 ≤ height w.

Definition is_F5 (e : shell_event) : bool :=
  match e with KeyPress Key_F5 => true | _ => false end.

Definition is_F12 (e : shell_event) : bool :=
  match e with KeyPress Key_F12 => true | _ => false end.

(** ** The player of a video surface

    The player is opaque; what the program does with it is the sequence of
    its calls on [self.player], and what it prints. *)
Inductive MediaStatus :=
| NoMedia | LoadingMedia | LoadedMedia | StalledMedia
| BufferingMedia | BufferedMedia | EndOfMedia | InvalidMedia.

Inductive player_call :=
| SetAudioOutput
| SetVideoOutput
| SetSource (path : str)
| Play
| SetPosition (position : Z)
| Stop.

Record video := mkVideo {
  player_calls : list player_call;
  printed : list str
}.

Definition call (v : video) (c : player_call) : video :=
  mkVideo (player_calls v ++ [c]) (printed v).

Definition print_line (v : video) (line : str) : video :=
  mkVideo (player_calls v) (printed v ++ [line]).

Definition load_video (v : video) (path : str) : video :=
  call (call v (SetSource path)) Play.

Definition handle_media_status (v : video) (status : MediaStatus) : video :=
  match status with
  | EndOfMedia => call (call v (SetPosition 0)) Play
  | _ => v
  end.

Definition handle_error (v : video) (error_msg : str) : video :=
  print_line v (py "Media error: " ++ error_msg).

Definition closeEvent (v : video) : video := call v Stop.

(** The part of [VideoWidget.__init__] that concerns the player; an empty
    [video_path] is false. *)
Definition VideoWidget_player_init (video_path : str) : video :=
  let v := call (call (mkVideo [] []) SetAudioOutput) SetVideoOutput in
  if bool_decide (video_path ≠ []) then load_video v video_path else v.

(** What reaches a video surface after its construction: the two signals
    of the player it has connected, and the closing of the widget. *)
Inductive video_event :=
| MediaStatusChanged (status : MediaStatus)
| ErrorOccurred (error_msg : str)
| Close.

Definition video_step (v : video) (e : video_event) : video :=
  match e with
  | MediaStatusChanged status => handle_media_status v status
  | ErrorOccurred error_msg => handle_error v error_msg
  | Close => closeEvent v
  end.

Definition is_EndOfMedia (e : video_event) : bool :=
  match e with MediaStatusChanged EndOfMedia => true | _ => false end.

Definition is_Close (e : video_event) : bool :=
  match e with Close => true | _ => false end.

Definition is_Play (c : player_call) : bool :=
  match c with Play => true | _ => false end.

(** The calls on the player that one event brings about, read off the
    three handlers. *)
Definition calls_of (e : video_event) : list player_call :=
  match e with
  | MediaStatusChanged EndOfMedia => [SetPosition 0; Play]
  | Close => [Stop]
  | _ => []
  end.

Definition lines_of (e : video_event) : list str :=
  match e with
  | ErrorOccurred error_msg => [py "Media error: " ++ error_msg]
  | _ => []
  end.

(** ** The address of the browser surface *)

Definition default_url : str := py "https://www.google.com".

(** [QUrl(url) if url else QUrl("https://www.google.com")] in
    [BrowserWidget.__init__]; [None] and the empty string are false. *)
Definition browser_url (url : option str) : str :=
  match url with
  | Some u => if bool_decide (u ≠ []) then u else default_url
  | None => default_url
  end.

(** [QComboBox.currentText()] of a combo box that is not editable: the
    text of the current item, and the empty string without one. *)
Definition currentText (items : list str) (currentIndex : option nat) : str :=
  default [] (currentIndex ≫= λ i, items !! i).

(** * Properties of the pointer handlers *)

Lemma mouseMoveEvent_flags w e :
  dragging (mouseMoveEvent w e).1 = dragging w ∧
  resizing (mouseMoveEvent w e).1 = resizing w.
Proof.
  unfold mouseMoveEvent, update_content_geometry.
  destruct (dragging w) eqn:Hd; [by simpl|].
  destruct (resizing w) eqn:Hr; [|done].
  simpl. by destruct (cls w); rewrite ?Hd, ?Hr.
Qed.

Lemma handle_Move_flags w e w' o :
  handle w (Move e) = (w', o) → dragging w' = dragging w ∧ resizing w' = resizing w.
Proof.
  simpl. intros H. pose proof (mouseMoveEvent_flags w e) as Hf.
  by rewrite H in Hf.
Qed.

Lemma presses_from_idle_take a evs k :
  presses_from_idle a evs = true → presses_from_idle a (take k evs) = true.
Proof.
  revert a k. induction evs as [|ev evs IH]; intros a k H; [by destruct k|].
  destruct k as [|k]; [done|]. simpl in *.
  destruct ev as [e|e|e]; [|by apply IH..].
  destruct (is_LeftButton (button e)); [|by apply IH].
  apply andb_true_iff in H as [-> H]. simpl. by apply IH.
Qed.

Lemma run_exclusive evs : ∀ w,
  exclusive w →
  presses_from_idle (dragging w || resizing w) evs = true →
  exclusive (run w evs).1.
Proof.
  induction evs as [|ev evs IH]; intros w Hex Hwf; [done|].
  destruct ev as [e|e|e].
  - (* Down *)
    simpl in *. unfold mousePressEvent.
    destruct (is_LeftButton (button e)); [|by apply IH].
    apply andb_true_iff in Hwf as [Hidle Hwf].
    apply negb_true_iff, orb_false_iff in Hidle as [Hd Hr].
    destruct (is_on_border w (pos e)); apply IH; unfold exclusive; simpl;
      rewrite ?Hd, ?Hr; done.
  - (* Move *)
    cbn [run]. destruct (handle w (Move e)) as [w' o] eqn:Hh.
    apply handle_Move_flags in Hh as [Hd Hr].
    destruct o; [by unfold exclusive; simpl; rewrite Hd, Hr|].
    apply IH; [by unfold exclusive; rewrite Hd, Hr|].
    rewrite Hd, Hr. exact Hwf.
  - (* Up *)
    simpl in *. by apply IH.
Qed.

Lemma construct_idle c : dragging (construct c) = false ∧ resizing (construct c) = false.
Proof. by destruct c. Qed.

(** C1, as the code has it: when no press with the left button arrives
    while an interaction is under way (presses and releases alternate), the
    flags [dragging] and [resizing] are never both true, after no prefix of
    the event sequence; the surface is then in the one state that the flags
    name. *)
Theorem C1_flags_exclusive_when_presses_from_idle c evs k :
  presses_from_idle false evs = true →
  let w := (run_fresh c (take k evs)).1 in
  dragging w && resizing w = false ∧
  (interactionState w = Idle ↔ dragging w = false ∧ resizing w = false) ∧
  (interactionState w = Dragging ↔ dragging w = true ∧ resizing w = false) ∧
  (interactionState w = Resizing ↔ dragging w = false ∧ resizing w = true).
Proof.
  intros Hwf w.
  assert (Hex : exclusive w).
  { apply run_exclusive.
    - unfold exclusive. by destruct (construct_idle c) as [-> ->].
    - destruct (construct_idle c) as [-> ->]. by apply presses_from_idle_take. }
  unfold exclusive in Hex. split; [exact Hex|].
  unfold interactionState.
  destruct (dragging w), (resizing w); simpl in *; try discriminate;
    repeat split; intros; try done; by destruct_and?.
Qed.

(** A drag, its release and a press on the corner. *)
Lemma C1_flags_exclusive_witness :
  dragging (run_fresh BrowserWidget
              [Down (left_at 400 300 450 350); Move (left_at 410 300 460 350);
               Up (left_at 410 300 460 350); Down (left_at 795 595 900 700)]).1
  && resizing (run_fresh BrowserWidget
              [Down (left_at 400 300 450 350); Move (left_at 410 300 460 350);
               Up (left_at 410 300 460 350); Down (left_at 795 595 900 700)]).1
  = false.
Proof.
  exact (proj1 (C1_flags_exclusive_when_presses_from_idle BrowserWidget
           [Down (left_at 400 300 450 350); Move (left_at 410 300 460 350);
            Up (left_at 410 300 460 350); Down (left_at 795 595 900 700)]
           4 eq_refl)).
Defined.

(** C1 fails as stated: a second press with the left button, before any
    release, sets the flag that the first press left alone. *)
Lemma C1_two_presses_set_both_flags :
  let w := (run_fresh BrowserWidget
              [Down (left_at 400 300 450 350); Down (left_at 795 595 845 645)]).1 in
  dragging w = true ∧ resizing w = true.
Proof. by vm_compute. Qed.

Lemma is_on_border_spec w p :
  is_on_border w p = true ↔ pt_x p >= width w - 10 ∧ pt_y p >= height w - 10.
Proof. unfold is_on_border. rewrite andb_true_iff, !Z.geb_le. lia. Qed.

(** C2, as the code has it: a press with the left button at [pos] with
    [pos.x >= width-10] and [pos.y >= height-10] sets [resizing]; any other
    press with the left button sets [dragging] and stores the global pointer
    position in [drag_position].  The handler does this in every state;
    from Idle the surface so enters Resizing, respectively Dragging.  On a
    surface of size (800,600) a press at (795,595) enters Resizing and one
    at (400,300) enters Dragging. *)
Theorem C2_press_left w e :
  button e = LeftButton →
  (pt_x (pos e) >= width w - 10 ∧ pt_y (pos e) >= height w - 10 →
     mousePressEvent w e = set_resizing w true ∧
     (interactionState w = Idle → interactionState (mousePressEvent w e) = Resizing)) ∧
  (¬ (pt_x (pos e) >= width w - 10 ∧ pt_y (pos e) >= height w - 10) →
     mousePressEvent w e
       = set_drag_position (set_dragging w true) (globalPosition_toPoint e) ∧
     interactionState (mousePressEvent w e) = Dragging ∧
     drag_position (mousePressEvent w e) = globalPosition_toPoint e) ∧
  (width w = 800 → height w = 600 → interactionState w = Idle →
     ∀ g, interactionState (mousePressEvent w (mkQMouseEvent LeftButton (mkQPoint 795 595) g))
            = Resizing ∧
          interactionState (mousePressEvent w (mkQMouseEvent LeftButton (mkQPoint 400 300) g))
            = Dragging ∧
          drag_position (mousePressEvent w (mkQMouseEvent LeftButton (mkQPoint 400 300) g))
            = g).
Proof.
  intros Hb. unfold mousePressEvent. rewrite Hb. simpl.
  split; [|split].
  - intros Hon. apply is_on_border_spec in Hon. rewrite Hon. split; [done|].
    unfold interactionState. simpl. by destruct (dragging w).
  - intros Hoff. rewrite <- is_on_border_spec in Hoff.
    apply not_true_is_false in Hoff. by rewrite Hoff.
  - intros Hw Hh Hi g. unfold is_on_border, interactionState in *. simpl.
    rewrite Hw, Hh. simpl. by destruct (dragging w).
Qed.

(** A press on the corner of a new browser surface. *)
Lemma C2_press_left_witness :
  interactionState
    (mousePressEvent BrowserWidget_init (left_at 795 595 945 745)) = Resizing.
Proof.
  refine (proj2 (proj1 (C2_press_left BrowserWidget_init (left_at 795 595 945 745) eq_refl) _) eq_refl).
  simpl. lia.
Defined.

(** C2 fails as stated: the press handler has no test of the current state.
    On a surface that is Dragging, a further press with the left button on
    the corner sets [resizing], and one elsewhere replaces [drag_position]. *)
Lemma C2_press_while_dragging_is_not_a_noop :
  let w := mousePressEvent BrowserWidget_init (left_at 400 300 450 350) in
  interactionState w = Dragging ∧
  mousePressEvent w (left_at 795 595 845 645) ≠ w ∧
  resizing (mousePressEvent w (left_at 795 595 845 645)) = true ∧
  mousePressEvent w (left_at 10 10 60 60) ≠ w ∧
  drag_position (mousePressEvent w (left_at 10 10 60 60)) = mkQPoint 60 60.
Proof. repeat split; try done; by vm_compute. Qed.

Lemma mouseMoveEvent_size w e :
  100 ≤ width w → 100 ≤ height w →
  100 ≤ width (mouseMoveEvent w e).1 ∧ 100 ≤ height (mouseMoveEvent w e).1.
Proof.
  intros Hw Hh. unfold mouseMoveEvent, update_content_geometry.
  destruct (dragging w); [done|].
  destruct (resizing w); [|done].
  simpl. destruct (cls w); simpl; lia.
Qed.

Lemma handle_size w ev :
  100 ≤ width w → 100 ≤ height w →
  100 ≤ width (handle w ev).1 ∧ 100 ≤ height (handle w ev).1.
Proof.
  intros Hw Hh. destruct ev as [e|e|e]; simpl.
  - unfold mousePressEvent.
    by destruct (is_LeftButton (button e)), (is_on_border w (pos e)).
  - by apply mouseMoveEvent_size.
  - done.
Qed.

Lemma run_size evs : ∀ w,
  100 ≤ width w → 100 ≤ height w →
  100 ≤ width (run w evs).1 ∧ 100 ≤ height (run w evs).1.
Proof.
  induction evs as [|ev evs IH]; intros w Hw Hh; [done|].
  cbn [run]. pose proof (handle_size w ev Hw Hh) as Hs.
  destruct (handle w ev) as [w' [ex|]]; simpl in Hs; [done|].
  destruct Hs. by apply IH.
Qed.

(** C3: whatever pointer events a surface receives after its construction
    with size (800,600), its width and its height are at least 100; a move
    while Resizing sets them to [max(100, pos.x)] and [max(100, pos.y)], for
    every integer [pos.x] and [pos.y]. *)
Theorem C3_size_floor c evs w e :
  100 ≤ width (run_fresh c evs).1 ∧ 100 ≤ height (run_fresh c evs).1 ∧
  width (construct c) = 800 ∧ height (construct c) = 600 ∧
  width (mouseMoveEvent (set_resizing (set_dragging w false) true) e).1
    = Z.max 100 (pt_x (pos e)) ∧
  height (mouseMoveEvent (set_resizing (set_dragging w false) true) e).1
    = Z.max 100 (pt_y (pos e)).
Proof.
  assert (Hc : width (construct c) = 800 ∧ height (construct c) = 600)
    by by destruct c.
  destruct Hc as [Hcw Hch].
  destruct (run_size evs (construct c)) as [H1 H2]; [lia..|].
  repeat split; try done.
  - unfold mouseMoveEvent, update_content_geometry. simpl. by destruct (cls w).
  - unfold mouseMoveEvent, update_content_geometry. simpl. by destruct (cls w).
Qed.

(** C4, as the code has it: every constructor of a concrete surface leaves
    the payload at (5, 5, 790, 590), the browser and the image surface by
    one call of the geometry callback; every move while Resizing calls the
    callback once, and the payload is then at (5, 5, width-10, height-10)
    for the new size; a move while Dragging or Idle neither calls the
    callback nor touches the payload geometry. *)
Theorem C4_content_geometry w e :
  concrete (cls w) →
  (∀ c, concrete c → payload_geometry (construct c) = Some (mkQRect 5 5 790 590)) ∧
  hook_calls (construct BrowserWidget) = 1%nat ∧
  hook_calls (construct ImageWidget) = 1%nat ∧
  (dragging w = false → resizing w = true →
     let w' := (mouseMoveEvent w e).1 in
     (mouseMoveEvent w e).2 = None ∧
     hook_calls w' = S (hook_calls w) ∧
     payload_geometry w' = Some (mkQRect 5 5 (width w' - 10) (height w' - 10))) ∧
  (dragging w = true ∨ resizing w = false →
     let w' := (mouseMoveEvent w e).1 in
     hook_calls w' = hook_calls w ∧ payload_geometry w' = payload_geometry w ∧
     width w' = width w ∧ height w' = height w).
Proof.
  unfold concrete. intros Hc. split; [|split; [done|split; [done|split]]].
  - intros c Hcc. by destruct c.
  - intros Hd Hr. unfold mouseMoveEvent, update_content_geometry.
    rewrite Hd, Hr. simpl. by destruct (cls w).
  - intros Hi. unfold mouseMoveEvent. destruct (dragging w); [done|].
    by destruct Hi as [? | ->].
Qed.

(** A video surface resized to (300,100) by a move to (300,50). *)
Lemma C4_content_geometry_witness :
  payload_geometry
    (mouseMoveEvent (mousePressEvent VideoWidget_init (left_at 795 595 845 645))
                    (left_at 300 50 350 100)).1
  = Some (mkQRect 5 5 290 90).
Proof.
  refine (proj2 (proj2 (proj1 (proj2 (proj2 (proj2
    (C4_content_geometry
       (mousePressEvent VideoWidget_init (left_at 795 595 845 645))
       (left_at 300 50 350 100) _))))
    eq_refl eq_refl))).
  unfold concrete. simpl. discriminate.
Defined.

(** C4 fails as stated: the constructor of [VideoWidget] sets the payload
    geometry itself; the callback is not called at the construction of a
    video surface. *)
Lemma C4_video_constructor_does_not_call_the_hook :
  hook_calls VideoWidget_init = 0%nat ∧
  payload_geometry VideoWidget_init = Some (mkQRect 5 5 790 590).
Proof. done. Qed.

(** C5: a move while [dragging] is set adds to the origin the difference
    between the global pointer position and [drag_position], and stores
    the global pointer position in [drag_position]; the size stays.  Two
    such moves in a row add up to the difference between the last position
    and the first [drag_position].  A move while Idle changes nothing. *)
Theorem C5_drag_is_relative w e :
  (dragging w = true →
     let g := globalPosition_toPoint e in
     let w' := (mouseMoveEvent w e).1 in
     mouseMoveEvent w e
       = (set_drag_position
            (move w (x w + (pt_x g - pt_x (drag_position w)))
                    (y w + (pt_y g - pt_y (drag_position w)))) g, None) ∧
     x w' = x w + (pt_x g - pt_x (drag_position w)) ∧
     y w' = y w + (pt_y g - pt_y (drag_position w)) ∧
     drag_position w' = g ∧
     width w' = width w ∧ height w' = height w ∧
     ∀ e2, let g2 := globalPosition_toPoint e2 in
           let w'' := (mouseMoveEvent w' e2).1 in
           x w'' = x w + (pt_x g2 - pt_x (drag_position w)) ∧
           y w'' = y w + (pt_y g2 - pt_y (drag_position w)) ∧
           drag_position w'' = g2) ∧
  (interactionState w = Idle → mouseMoveEvent w e = (w, None)).
Proof.
  split.
  - intros Hd. unfold mouseMoveEvent. rewrite Hd. simpl.
    repeat split; simpl; rewrite ?Hd; simpl; first [done | lia].
  - unfold interactionState, mouseMoveEvent.
    by destruct (dragging w), (resizing w).
Qed.

(** A surface at (150,150), grabbed at (550,450) on the screen and dragged
    to (530,460), is at (130,160). *)
Lemma C5_drag_is_relative_witness :
  x (mouseMoveEvent (mousePressEvent (move BrowserWidget_init 150 150)
                                     (left_at 400 300 550 450))
                    (left_at 380 310 530 460)).1 = 130.
Proof.
  exact (proj1 (proj2 (proj1
    (C5_drag_is_relative
       (mousePressEvent (move BrowserWidget_init 150 150) (left_at 400 300 550 450))
       (left_at 380 310 530 460)) eq_refl))).
Defined.

(** C10: a press with a button other than the left one returns the widget
    as it was: [dragging], [resizing], [drag_position], origin and size
    keep their values. *)
Theorem C10_other_button_press_is_a_noop w e :
  button e ≠ LeftButton →
  mousePressEvent w e = w ∧
  dragging (mousePressEvent w e) = dragging w ∧
  resizing (mousePressEvent w e) = resizing w ∧
  drag_position (mousePressEvent w e) = drag_position w ∧
  x (mousePressEvent w e) = x w ∧ y (mousePressEvent w e) = y w ∧
  width (mousePressEvent w e) = width w ∧ height (mousePressEvent w e) = height w.
Proof.
  intros Hb. unfold mousePressEvent.
  by destruct (button e).
Qed.

(** A press with the right button on the corner. *)
Lemma C10_other_button_press_witness :
  mousePressEvent BrowserWidget_init
    (mkQMouseEvent RightButton (mkQPoint 795 595) (mkQPoint 845 645))
  = BrowserWidget_init.
Proof.
  refine (proj1 (C10_other_button_press_is_a_noop BrowserWidget_init
    (mkQMouseEvent RightButton (mkQPoint 795 595) (mkQPoint 845 645)) _)).
  simpl. discriminate.
Defined.

(** * Properties of the address list *)

Section first_occurrences.
Implicit Types (l : list str) (u v : str).

Lemma elem_of_first_occurrences l u : u ∈ first_occurrences l ↔ u ∈ l.
Proof.
  induction l as [|v l IH]; [done|]. simpl.
  rewrite !elem_of_cons, list_elem_of_filter, IH.
  destruct (decide (u = v)); naive_solver.
Qed.

Lemma NoDup_first_occurrences l : NoDup (first_occurrences l).
Proof.
  induction l as [|v l IH]; simpl; [constructor|].
  constructor; [|by apply NoDup_filter].
  rewrite list_elem_of_filter. naive_solver.
Qed.

Lemma first_occurrences_sublist l : first_occurrences l `sublist_of` l.
Proof.
  induction l as [|v l IH]; simpl; [constructor|].
  apply sublist_skip. etrans; [apply sublist_filter|done].
Qed.

(** A further entry is dropped when it was seen before and goes to the
    end otherwise. *)
Lemma first_occurrences_snoc l u :
  first_occurrences (l ++ [u])
  = if decide (u ∈ l) then first_occurrences l else first_occurrences l ++ [u].
Proof.
  induction l as [|v l IH]; [done|].
  cbn [app first_occurrences]. rewrite IH.
  destruct (decide (u = v)) as [->|Hne].
  - rewrite (decide_True (P := v ∈ v :: l)) by left.
    destruct (decide (v ∈ l)); [done|].
    by rewrite filter_app, (filter_cons_False _ v) by naive_solver;
      rewrite filter_nil, app_nil_r.
  - destruct (decide (u ∈ l)) as [Hin|Hnin].
    + by rewrite decide_True by by right.
    + rewrite decide_False by (rewrite elem_of_cons; naive_solver).
      by rewrite filter_app, (filter_cons_True _ u) by done.
Qed.
End first_occurrences.

Lemma read_lines_snoc lines line :
  read_lines (lines ++ [line]) = read_step (read_lines lines) line.
Proof. unfold read_lines. by rewrite foldl_app. Qed.

(** The loop of [read_urls_from_config] computes [listAll_spec], and [seen]
    holds the members of [urls]. *)
Lemma read_lines_spec lines :
  (read_lines lines).1 = listAll_spec lines ∧
  ∀ u, u ∈ (read_lines lines).2 ↔ u ∈ (read_lines lines).1.
Proof.
  induction lines as [|line lines [IH1 IH2]] using rev_ind.
  { split; [done|]. intros u. cbn. set_solver. }
  rewrite read_lines_snoc. unfold read_step, listAll_spec in *.
  rewrite fmap_app, filter_app. cbn [fmap list_fmap].
  destruct (decide (strip line = [])) as [Hb|Hb].
  { rewrite bool_decide_false by naive_solver. cbn [andb].
    rewrite filter_cons_False, filter_nil, app_nil_r by naive_solver. done. }
  rewrite bool_decide_true by done. cbn [andb].
  rewrite filter_cons_True, filter_nil by done.
  rewrite first_occurrences_snoc.
  destruct (decide (strip line ∈ (read_lines lines).2)) as [Hs|Hs].
  - rewrite bool_decide_false by naive_solver.
    apply IH2 in Hs. rewrite IH1, elem_of_first_occurrences in Hs.
    by rewrite decide_True.
  - rewrite bool_decide_true by done. cbn [fst snd].
    rewrite IH2, IH1, elem_of_first_occurrences in Hs.
    rewrite decide_False by done. split; [by rewrite IH1|].
    intros u. rewrite elem_of_union, elem_of_singleton, elem_of_app, IH2.
    rewrite list_elem_of_singleton. naive_solver.
Qed.

(** One more line: its entry goes to the end of the list when it is not
    blank and not in the list yet, and is dropped otherwise. *)
Lemma read_lines_snoc_urls lines line :
  (read_lines (lines ++ [line])).1
  = if decide (strip line ≠ [] ∧ strip line ∉ (read_lines lines).1)
    then (read_lines lines).1 ++ [strip line] else (read_lines lines).1.
Proof.
  destruct (read_lines_spec lines) as [_ Hseen].
  rewrite read_lines_snoc. unfold read_step.
  destruct (decide (strip line ≠ [] ∧ strip line ∉ (read_lines lines).1))
    as [[H1 H2]|H].
  - rewrite !bool_decide_true; [done| |done]. by rewrite Hseen.
  - destruct (decide (strip line = [])) as [Hb|Hb].
    + by rewrite bool_decide_false by naive_solver.
    + rewrite bool_decide_true by done.
      rewrite bool_decide_false; [done|]. rewrite Hseen. naive_solver.
Qed.

Lemma NoDup_read_urls_from_config file : NoDup (read_urls_from_config file).
Proof.
  destruct file as [content|]; simpl; [|constructor].
  rewrite (proj1 (read_lines_spec _)). apply NoDup_first_occurrences.
Qed.

(** C7: [read_urls_from_config] returns, for every sequence of lines, the
    entries (the lines without the white space around them) that are not
    blank, each once, at the place of its first occurrence; for the file
    with the lines ["https://x.com"], [""], ["https://x.com"] and
    ["https://y.com"] that is [["https://x.com"; "https://y.com"]]. *)
Theorem C7_listAll_first_occurrences content lines :
  let entries := filter (λ u, u ≠ []) (strip <$> lines) in
  let listAll := (read_lines lines).1 in
  read_urls_from_config (Some content) = (read_lines (file_lines content)).1 ∧
  listAll = listAll_spec lines ∧
  NoDup listAll ∧
  (∀ u, u ∈ listAll ↔ u ∈ entries) ∧
  listAll `sublist_of` entries ∧
  (∀ line, (read_lines (lines ++ [line])).1
           = if decide (strip line ≠ [] ∧ strip line ∉ listAll)
             then listAll ++ [strip line] else listAll) ∧
  read_urls_from_config
    (Some (py "https://x.com" ++ [LF; LF] ++ py "https://x.com" ++ [LF]
           ++ py "https://y.com" ++ [LF]))
  = [py "https://x.com"; py "https://y.com"] ∧
  read_urls_from_config None = [].
Proof.
  intros entries listAll. subst listAll.
  destruct (read_lines_spec lines) as [Heq Hseen].
  split; [done|]. split; [done|].
  split; [rewrite Heq; apply NoDup_first_occurrences|].
  split; [intros u; rewrite Heq; apply elem_of_first_occurrences|].
  split; [rewrite Heq; apply first_occurrences_sublist|].
  split; [|split; [by vm_compute|done]].
  intros line. apply read_lines_snoc_urls.
Qed.

(** ** Appending a line to the file *)

Lemma lstrip_length s : (length (lstrip s) ≤ length s)%nat.
Proof.
  induction s as [|c s IH]; simpl; [done|].
  destruct (isspace c); simpl; lia.
Qed.

Lemma rstrip_length s : (length (rstrip s) ≤ length s)%nat.
Proof.
  unfold rstrip. rewrite length_reverse.
  etrans; [apply lstrip_length|]. by rewrite length_reverse.
Qed.

Lemma lstrip_fixed s : length (lstrip s) = length s → lstrip s = s.
Proof.
  destruct s as [|c s]; simpl; [done|].
  destruct (isspace c); [|done].
  pose proof (lstrip_length s). lia.
Qed.

Lemma strip_fixed s : strip s = s → lstrip s = s ∧ lstrip (reverse s) = reverse s.
Proof.
  unfold strip. intros Hs.
  assert (Hl : lstrip s = s).
  { apply lstrip_fixed. pose proof (rstrip_length (lstrip s)) as H1.
    pose proof (lstrip_length s) as H2. rewrite Hs in H1. lia. }
  split; [done|]. rewrite Hl in Hs. unfold rstrip in Hs.
  apply (f_equal reverse) in Hs. by rewrite reverse_involutive in Hs.
Qed.

(** The entry read from the line that [write_url_to_config] writes for an
    address without white space at its ends is the address. *)
Lemma strip_line a : a ≠ [] → strip a = a → strip (a ++ [LF]) = a.
Proof.
  intros Hne Hs. apply strip_fixed in Hs as [Hl Hr].
  destruct a as [|c a]; [done|]. unfold strip. simpl in *.
  destruct (isspace c) eqn:Hc.
  { pose proof (lstrip_length a) as H. rewrite Hl in H. simpl in H. lia. }
  unfold rstrip. change (c :: a ++ [LF]) with ((c :: a) ++ [LF]).
  rewrite reverse_app. change (reverse [LF]) with [LF]. simpl.
  by rewrite Hr, reverse_involutive.
Qed.

Lemma universal_newlines_plain a b t :
  a ≠ [] → CR ∉ a → LF ∉ a →
  universal_newlines b (a ++ t) = a ++ universal_newlines false t.
Proof.
  revert b. induction a as [|c a IH]; intros b Hne Hcr Hlf; [done|].
  apply not_elem_of_cons in Hcr as [Hc1 Hcr], Hlf as [Hc2 Hlf].
  simpl. rewrite (proj2 (N.eqb_neq c CR)), (proj2 (N.eqb_neq c LF)) by done.
  f_equal. destruct a as [|d a]; [done|]. by apply IH.
Qed.

(** What was read before the appended line does not depend on it. *)
Lemma universal_newlines_app_plain c a t b :
  a ≠ [] → CR ∉ a → LF ∉ a →
  universal_newlines b (c ++ a ++ t)
  = universal_newlines b c ++ a ++ universal_newlines false t.
Proof.
  intros Hne Hcr Hlf. revert b.
  induction c as [|d c IH]; intros b; [by simpl; apply universal_newlines_plain|].
  simpl. destruct (d =? CR)%N; [by rewrite IH|].
  destruct (d =? LF)%N; [destruct b|]; by rewrite IH.
Qed.

Lemma write_translate_plain pf a :
  LF ∉ a → write_translate pf (a ++ [LF]) = a ++ linesep pf.
Proof.
  intros Hlf. unfold write_translate. rewrite bind_app. f_equal.
  - induction a as [|c a IH]; [done|].
    apply not_elem_of_cons in Hlf as [Hc Hlf]. cbn.
    rewrite (proj2 (N.eqb_neq c LF)) by done. simpl. f_equal. by apply IH.
  - cbn. by rewrite app_nil_r.
Qed.

Lemma split_lines_plain a cur :
  LF ∉ a → split_lines cur (a ++ [LF]) = [reverse cur ++ a ++ [LF]].
Proof.
  revert cur. induction a as [|c a IH]; intros cur Hlf.
  { simpl. by rewrite reverse_cons. }
  apply not_elem_of_cons in Hlf as [Hc Hlf].
  simpl. rewrite (proj2 (N.eqb_neq c LF)) by done.
  rewrite IH by done. by rewrite reverse_cons, <- app_assoc.
Qed.

Lemma split_lines_app s t cur :
  split_lines cur (s ++ LF :: t) = split_lines cur (s ++ [LF]) ++ split_lines [] t.
Proof.
  revert cur. induction s as [|c s IH]; intros cur; [done|].
  simpl. destruct (c =? LF)%N; [|by apply IH].
  by rewrite IH.
Qed.

(** After a text that ends with a line end, a further line [a] is read as
    one more line. *)
Lemma file_lines_append pf c a :
  a ≠ [] → CR ∉ a → LF ∉ a →
  file_lines ((c ++ a ++ linesep pf) ++ a ++ linesep pf)
  = file_lines (c ++ a ++ linesep pf) ++ [a ++ [LF]].
Proof.
  intros Hne Hcr Hlf. unfold file_lines.
  assert (Hsep : universal_newlines false (linesep pf) = [LF]) by by destruct pf.
  assert (Hfirst : universal_newlines false (c ++ a ++ linesep pf)
                   = (universal_newlines false c ++ a) ++ [LF]).
  { rewrite universal_newlines_app_plain; [|assumption..].
    by rewrite Hsep, <- app_assoc. }
  rewrite Hfirst.
  rewrite <- (app_assoc c), <- (app_assoc a).
  rewrite (universal_newlines_app_plain c) by done.
  rewrite (universal_newlines_app_plain (linesep pf)), Hsep by done.
  rewrite (app_assoc (universal_newlines false c) a).
  change ([LF] ++ a ++ [LF]) with (LF :: a ++ [LF]).
  rewrite split_lines_app. f_equal. by rewrite split_lines_plain.
Qed.

Lemma occurrences_not_elem_of u l : u ∉ l → occurrences u l = 0%nat.
Proof.
  unfold occurrences. induction l as [|v l IH]; [done|].
  intros [Hne Hnin]%not_elem_of_cons.
  rewrite filter_cons_False by naive_solver. by apply IH.
Qed.

Lemma occurrences_NoDup u l : NoDup l → u ∈ l → occurrences u l = 1%nat.
Proof.
  induction 1 as [|v l Hv Hnd IH]; [by intros ?%elem_of_nil|].
  intros [->|Hin]%elem_of_cons.
  - pose proof (occurrences_not_elem_of v l Hv) as H0.
    unfold occurrences in *. rewrite filter_cons_True by done.
    simpl. by rewrite H0.
  - specialize (IH Hin). unfold occurrences in *.
    rewrite filter_cons_False by naive_solver. done.
Qed.

Lemma occurrences_snoc u l : u ∉ l → occurrences u (l ++ [u]) = 1%nat.
Proof.
  intros Hnin. pose proof (occurrences_not_elem_of u l Hnin) as H0.
  unfold occurrences in *. rewrite filter_app, length_app, H0.
  by rewrite filter_cons_True.
Qed.

Lemma config_add_url pf d a :
  a ≠ [] → config (add_url pf d a true) = write_url_to_config pf (config d) a.
Proof.
  intros Hne. unfold add_url. rewrite (bool_decide_true (a ≠ [])) by done.
  cbn [andb]. by case_bool_decide.
Qed.

(** Writing an address twice leaves it once in what is read back, whatever
    the file held before. *)
Lemma write_twice_once pf file a :
  a ≠ [] → strip a = a → CR ∉ a → LF ∉ a →
  occurrences a (read_urls_from_config
                   (write_url_to_config pf (write_url_to_config pf file a) a))
  = 1%nat.
Proof.
  intros Hne Hs Hcr Hlf.
  set (file1 := write_url_to_config pf file a).
  unfold write_url_to_config at 1.
  destruct (decide (a ∈ read_urls_from_config file1)) as [Hin|Hnin].
  { rewrite bool_decide_false by naive_solver.
    by apply occurrences_NoDup; [apply NoDup_read_urls_from_config|]. }
  rewrite bool_decide_true by done.
  assert (Hfile1 : file1 = Some (default [] file ++ a ++ linesep pf)).
  { subst file1. unfold write_url_to_config in *.
    destruct (decide (a ∈ read_urls_from_config file)) as [Hin|Hnin'].
    - by rewrite bool_decide_false in Hnin by naive_solver.
    - rewrite bool_decide_true by done. unfold append_text.
      by rewrite write_translate_plain. }
  unfold append_text. rewrite write_translate_plain by done.
  rewrite Hfile1 in Hnin |- *. cbn [default read_urls_from_config] in *.
  unfold id. rewrite file_lines_append by done.
  rewrite read_lines_snoc_urls, strip_line by done.
  rewrite decide_True by done. by apply occurrences_snoc.
Qed.

Lemma a_com_plain :
  py "https://a.com" ≠ [] ∧ strip (py "https://a.com") = py "https://a.com" ∧
  (CR ∉ py "https://a.com") ∧ (LF ∉ py "https://a.com").
Proof.
  split; [discriminate|]. split; [by vm_compute|].
  split; apply (bool_decide_unpack _); by vm_compute.
Qed.

(** C6, as the code has it: [add_url] changes nothing when the input dialog
    was cancelled or the address is empty (this test is in [add_url], not in
    [write_url_to_config]), and nothing when the address is both in what
    [read_urls_from_config] returns and in the list of the dialog; the file
    stays whenever the address is in what [read_urls_from_config] returns,
    the list of the dialog whenever the address is in it.  An address that
    is not empty and not in what [read_urls_from_config] returns is appended
    to the file, followed by a line end.  Adding ["https://a.com"] twice
    leaves exactly one occurrence of it in what [read_urls_from_config]
    returns, whatever the store held before. *)
Theorem C6_add_url pf d new_url ok :
  (ok = false ∨ new_url = [] → add_url pf d new_url ok = d) ∧
  (new_url ∈ read_urls_from_config (config d) → new_url ∈ urls d →
     add_url pf d new_url ok = d) ∧
  (new_url ∈ read_urls_from_config (config d) →
     config (add_url pf d new_url ok) = config d) ∧
  (new_url ∈ urls d →
     urls (add_url pf d new_url ok) = urls d ∧
     combobox_items (add_url pf d new_url ok) = combobox_items d) ∧
  (ok = true → new_url ≠ [] → new_url ∉ read_urls_from_config (config d) →
     config (add_url pf d new_url ok)
     = Some (default [] (config d) ++ write_translate pf (new_url ++ [LF]))) ∧
  (ok = true → new_url ≠ [] → new_url ∉ urls d →
     urls (add_url pf d new_url ok) = urls d ++ [new_url] ∧
     combobox_items (add_url pf d new_url ok) = combobox_items d ++ [new_url]) ∧
  (let a := py "https://a.com" in
   let listAll :=
     read_urls_from_config (config (add_url pf (add_url pf d a true) a true)) in
   occurrences a listAll = 1%nat ∧ NoDup listAll).
Proof.
  assert (Hfile : new_url ∈ read_urls_from_config (config d) →
                  config (add_url pf d new_url ok) = config d).
  { intros Hin. unfold add_url, write_url_to_config.
    rewrite (bool_decide_false (new_url ∉ read_urls_from_config (config d)))
      by naive_solver.
    destruct (ok && _); [|done]. by case_match. }
  assert (Hmem : new_url ∈ urls d →
                 urls (add_url pf d new_url ok) = urls d ∧
                 combobox_items (add_url pf d new_url ok) = combobox_items d).
  { intros Hin. unfold add_url.
    rewrite (bool_decide_false (new_url ∉ urls d)) by naive_solver.
    by destruct (ok && _). }
  split; [|split; [|split; [done|split; [done|split; [|split; [|split]]]]]].
  - intros [-> | ->]; [done|]. unfold add_url.
    rewrite bool_decide_false by naive_solver. by rewrite andb_false_r.
  - intros H1 H2. specialize (Hfile H1). destruct (Hmem H2) as [Hu Hc].
    destruct d, (add_url _ _ _ _). simpl in *. congruence.
  - intros -> Hne Hnin. rewrite config_add_url by done.
    unfold write_url_to_config, append_text. by rewrite bool_decide_true.
  - intros -> Hne Hnin. unfold add_url.
    by rewrite !bool_decide_true.
  - destruct a_com_plain as (Hne & Hs & Hcr & Hlf).
    rewrite !config_add_url by done. by apply write_twice_once.
  - apply NoDup_read_urls_from_config.
Qed.

(** Adding the one address of the file once more. *)
Lemma C6_add_url_witness :
  add_url Posix (setup_ui (Some (py "https://a.com" ++ [LF]))) (py "https://a.com") true
  = setup_ui (Some (py "https://a.com" ++ [LF])).
Proof.
  refine (proj1 (proj2 (C6_add_url Posix
            (setup_ui (Some (py "https://a.com" ++ [LF]))) (py "https://a.com") true))
          _ _);
    apply (bool_decide_unpack _); vm_compute; exact I.
Defined.

(** C6 fails as stated.  [write_url_to_config] appends a line for the empty
    address.  And after the address [" https://a.com"] (with a space in
    front) was added to an empty store, that address is in the list of the
    dialog, yet adding it again grows the file; and ["https://a.com"] is in
    what [read_urls_from_config] returns, yet adding it grows the list of
    the dialog. *)
Lemma C6_add_is_not_a_noop_on_every_present_or_empty_address :
  write_url_to_config Posix (Some []) [] = Some [LF] ∧
  let padded := py " https://a.com" in
  let a := py "https://a.com" in
  let d := add_url Posix (setup_ui None) padded true in
  (padded ∈ urls d ∧ config (add_url Posix d padded true) ≠ config d) ∧
  (a ∈ read_urls_from_config (config d) ∧ urls (add_url Posix d a true) ≠ urls d).
Proof.
  split; [by vm_compute|]. cbv zeta.
  split; (split; [apply (bool_decide_unpack _); vm_compute; exact I|]);
    vm_compute; discriminate.
Qed.

(** * Properties of the shell *)

Lemma elem_of_image_extensions e :
  e ∈ image_extensions ↔ e = py ".png" ∨ e = py ".jpg" ∨ e = py ".jpeg" ∨ e = py ".bmp".
Proof. unfold image_extensions. set_solver. Qed.

Lemma elem_of_video_extensions e :
  e ∈ video_extensions ↔ e = py ".mp4" ∨ e = py ".avi" ∨ e = py ".mkv".
Proof. unfold video_extensions. set_solver. Qed.

Lemma image_video_disjoint e : e ∈ image_extensions → e ∉ video_extensions.
Proof.
  rewrite elem_of_image_extensions, elem_of_video_extensions.
  intros [-> | [-> | [-> | ->]]] [H | [H | H]]; discriminate H.
Qed.

(** C9: [setup_media] lower-cases the extension of the path before it
    looks it up.  An extension that equals [".png"], [".jpg"], [".jpeg"] or
    [".bmp"] under case folding gives an image surface, one that equals
    [".mp4"], [".avi"] or [".mkv"] a video surface, and every other
    extension, as well as no extension and no path, gives [None]. *)
Theorem C9_media_classification pf ul path :
  let ext := (splitext pf path).2 in
  (caseless_eq ul ext (py ".png") ∨ caseless_eq ul ext (py ".jpg") ∨
   caseless_eq ul ext (py ".jpeg") ∨ caseless_eq ul ext (py ".bmp") →
     setup_media pf ul path = Some (move ImageWidget_init 50 50) ∧
     cls (move ImageWidget_init 50 50) = ImageWidget) ∧
  (caseless_eq ul ext (py ".mp4") ∨ caseless_eq ul ext (py ".avi") ∨
   caseless_eq ul ext (py ".mkv") →
     setup_media pf ul path = Some (move VideoWidget_init 50 50) ∧
     cls (move VideoWidget_init 50 50) = VideoWidget) ∧
  (¬ (caseless_eq ul ext (py ".png") ∨ caseless_eq ul ext (py ".jpg") ∨
      caseless_eq ul ext (py ".jpeg") ∨ caseless_eq ul ext (py ".bmp") ∨
      caseless_eq ul ext (py ".mp4") ∨ caseless_eq ul ext (py ".avi") ∨
      caseless_eq ul ext (py ".mkv")) →
     setup_media pf ul path = None) ∧
  setup_media pf ul (py "/home/user/Photo.PNG") = Some (move ImageWidget_init 50 50) ∧
  setup_media pf ul (py "/home/user/holiday.JpEg") = Some (move ImageWidget_init 50 50) ∧
  setup_media pf ul (py "/home/user/clip.MKV") = Some (move VideoWidget_init 50 50) ∧
  setup_media pf ul (py "/home/user/notes.txt") = None ∧
  setup_media pf ul (py "/home/user/.png") = None ∧
  setup_media pf ul [] = None.
Proof.
  intros ext. unfold caseless_eq.
  change (lower ul (py ".png")) with (py ".png").
  change (lower ul (py ".jpg")) with (py ".jpg").
  change (lower ul (py ".jpeg")) with (py ".jpeg").
  change (lower ul (py ".bmp")) with (py ".bmp").
  change (lower ul (py ".mp4")) with (py ".mp4").
  change (lower ul (py ".avi")) with (py ".avi").
  change (lower ul (py ".mkv")) with (py ".mkv").
  rewrite <- elem_of_image_extensions.
  assert (Hempty : path = [] → lower ul ext = []) by by intros ->; destruct pf.
  assert (Hcode : setup_media pf ul path
                  = if bool_decide (lower ul ext ∈ image_extensions)
                    then Some (move ImageWidget_init 50 50)
                    else if bool_decide (lower ul ext ∈ video_extensions)
                    then Some (move VideoWidget_init 50 50) else None).
  { unfold setup_media. case_bool_decide as Hp; [|done].
    rewrite (Hempty Hp). by rewrite !bool_decide_false by by vm_compute. }
  split; [|split; [|split]].
  - intros Hin. by rewrite Hcode, bool_decide_true.
  - rewrite <- elem_of_video_extensions. intros Hin.
    rewrite Hcode, bool_decide_false, bool_decide_true; [done..|].
    intros Him. by apply (image_video_disjoint _ Him).
  - intros Hnot. rewrite Hcode, !bool_decide_false; [done| |].
    + rewrite elem_of_video_extensions. naive_solver.
    + rewrite elem_of_image_extensions. naive_solver.
  - by destruct pf; vm_compute.
Qed.

(** An upper-case [".BMP"]. *)
Lemma C9_media_classification_witness :
  setup_media Posix id (py "/srv/media/wall.BMP") = Some (move ImageWidget_init 50 50).
Proof.
  refine (proj1 (proj1 (C9_media_classification Posix id (py "/srv/media/wall.BMP")) _)).
  right; right; right. vm_compute. reflexivity.
Defined.

Lemma insert_before_spec a b l :
  b ∈ l →
  ∃ l1 l2, l = l1 ++ b :: l2 ∧ (b ∉ l1) ∧ insert_before a b l = l1 ++ [a; b] ++ l2.
Proof.
  induction l as [|c l IH]; [by intros ?%elem_of_nil|].
  intros Hin. simpl. destruct (decide (c = b)) as [->|Hne].
  - exists [], l. split; [done|]. split; [apply not_elem_of_nil|done].
  - apply elem_of_cons in Hin as [->|Hin]; [done|].
    destruct (IH Hin) as (l1 & l2 & -> & Hnin & ->).
    exists (c :: l1), l2. split; [done|]. split; [|done].
    apply not_elem_of_cons. naive_solver.
Qed.

(** After [a.stackUnder(b)], [a] is the child just below [b], and [a] is at
    no other place. *)
Lemma stackUnder_spec a b l :
  a ≠ b → a ∈ l → b ∈ l →
  ∃ l1 l2, stackUnder a b l = l1 ++ [a; b] ++ l2 ∧ (a ∉ l1) ∧ (a ∉ l2) ∧
           filter (λ c, c ≠ a) l = l1 ++ b :: l2.
Proof.
  intros Hne Ha Hb. unfold stackUnder. rewrite bool_decide_true by done.
  assert (Hb' : b ∈ filter (λ c, c ≠ a) l) by by apply list_elem_of_filter.
  destruct (insert_before_spec a b _ Hb') as (l1 & l2 & Heq & _ & ->).
  exists l1, l2. split; [done|].
  assert (Hno : a ∉ filter (λ c, c ≠ a) l).
  { rewrite list_elem_of_filter. naive_solver. }
  rewrite Heq in Hno. rewrite elem_of_app, elem_of_cons in Hno.
  naive_solver.
Qed.

Lemma shell_step_stack app e :
  children (shell_step app e) = children app ∧
  stack_calls (shell_step app e) = stack_calls app.
Proof.
  destruct e as [k|s ev]; simpl.
  - destruct k; simpl; [done| |done]. by destruct (browser_window app).
  - by destruct s.
Qed.

Lemma shell_run_stack evs : ∀ app,
  children (foldl shell_step app evs) = children app ∧
  stack_calls (foldl shell_step app evs) = stack_calls app.
Proof.
  induction evs as [|e evs IH]; intros app; [done|].
  simpl. destruct (IH (shell_step app e)) as [-> ->]. apply shell_step_stack.
Qed.

(** C8: when the constructor of the shell has created both a media surface
    and a content surface, it calls [stackUnder] once, and the media surface
    is then the child just below the content surface; when one of the two
    is missing, it makes no call and the children stay in the order of
    their creation.  No key and no pointer event changes the order of the
    children or calls [stackUnder] afterwards. *)
Theorem C8_stacking pf ul path accepted evs :
  let app := FullScreenApp_init pf ul path accepted in
  (is_Some (media_window app) → is_Some (browser_window app) →
     stack_calls app = 1%nat ∧
     ∃ below above, children app = below ++ [MediaChild; BrowserChild] ++ above) ∧
  (media_window app = None ∨ browser_window app = None →
     stack_calls app = 0%nat ∧
     children app
     = match media_window app with Some _ => [MediaChild] | None => [] end
       ++ [DialogChild]
       ++ match browser_window app with Some _ => [BrowserChild] | None => [] end) ∧
  children (foldl shell_step app evs) = children app ∧
  stack_calls (foldl shell_step app evs) = stack_calls app.
Proof.
  intros app. split; [|split; [|apply shell_run_stack]]; subst app;
    unfold FullScreenApp_init, adjust_window_stack; cbn [media_window browser_window];
    destruct (setup_media pf ul path) as [m|], accepted as [url|]; cbn.
  all: try (intros [? ?] [? ?]; discriminate).
  - intros _ _. split; [done|].
    change (add_child BrowserChild (add_child DialogChild (add_child MediaChild [])))
      with [MediaChild; DialogChild; BrowserChild].
    destruct (stackUnder_spec MediaChild BrowserChild
                [MediaChild; DialogChild; BrowserChild]) as (l1 & l2 & -> & _);
      [done|set_solver..|]. by exists l1, l2.
  - by intros [?|?].
  - done.
  - done.
  - done.
Qed.

(** An image and an accepted address: one call of [stackUnder]. *)
Lemma C8_stacking_witness :
  stack_calls (FullScreenApp_init Posix id (py "/srv/media/wall.png")
                 (Some (py "https://a.com"))) = 1%nat.
Proof.
  refine (proj1 (proj1 (C8_stacking Posix id (py "/srv/media/wall.png")
                          (Some (py "https://a.com")) []) _ _));
    vm_compute; eauto.
Defined.

(** * Further properties of the pointer handlers *)

Lemma run_app evs1 evs2 w :
  run w (evs1 ++ evs2)
  = match run w evs1 with
    | (w', None) => run w' evs2
    | (w', Some ex) => (w', Some ex)
    end.
Proof.
  revert w. induction evs1 as [|ev evs1 IH]; intros w; [done|].
  simpl. destruct (handle w ev) as [w' [ex|]]; [done|]. apply IH.
Qed.

Lemma handle_cls w ev : cls (handle w ev).1 = cls w.
Proof.
  destruct ev as [e|e|e]; simpl; [| |done].
  - unfold mousePressEvent.
    by destruct (is_LeftButton (button e)), (is_on_border w (pos e)).
  - unfold mouseMoveEvent, update_content_geometry.
    destruct (dragging w); [done|]. destruct (resizing w); [|done].
    simpl. by destruct (cls w) eqn:Hcls; simpl.
Qed.

Lemma handle_tracks w ev :
  concrete (cls w) →
  payload_geometry w = Some (inset_rect w) →
  (handle w ev).2 = None ∧
  payload_geometry (handle w ev).1 = Some (inset_rect (handle w ev).1).
Proof.
  unfold concrete, inset_rect in *. intros Hc Hp.
  destruct ev as [e|e|e]; simpl; [| |done].
  - unfold mousePressEvent.
    by destruct (is_LeftButton (button e)), (is_on_border w (pos e)).
  - unfold mouseMoveEvent, update_content_geometry.
    destruct (dragging w); [done|]. destruct (resizing w); [|done].
    simpl. by destruct (cls w) eqn:Hcls; [congruence|..].
Qed.

Lemma run_tracks evs : ∀ w,
  concrete (cls w) →
  payload_geometry w = Some (inset_rect w) →
  (run w evs).2 = None ∧ cls (run w evs).1 = cls w ∧
  payload_geometry (run w evs).1 = Some (inset_rect (run w evs).1).
Proof.
  induction evs as [|ev evs IH]; intros w Hc Hp; [done|].
  cbn [run]. destruct (handle_tracks w ev Hc Hp) as [Hn Hp'].
  pose proof (handle_cls w ev) as Hcls.
  destruct (handle w ev) as [w' o]. simpl in *. subst o.
  rewrite <- Hcls in Hc |- *. by apply IH.
Qed.

Lemma run_fresh_no_exception c evs :
  concrete c →
  (run_fresh c evs).2 = None ∧ cls (run_fresh c evs).1 = c.
Proof.
  intros Hc. unfold run_fresh.
  destruct (run_tracks evs (construct c)) as (H1 & H2 & _); [by destruct c..|].
  split; [done|]. by rewrite H2; destruct c.
Qed.

(** X1: on a browser, image or video surface no sequence of pointer events
    raises an exception, and after every such sequence the payload sits at
    (5, 5, width-10, height-10) for the size the surface has then. *)
Theorem X1_payload_tracks_frame c evs :
  concrete c →
  (run_fresh c evs).2 = None ∧
  cls (run_fresh c evs).1 = c ∧
  payload_geometry (run_fresh c evs).1
  = Some (mkQRect 5 5 (width (run_fresh c evs).1 - 10)
                      (height (run_fresh c evs).1 - 10)).
Proof.
  intros Hc. unfold run_fresh.
  destruct (run_tracks evs (construct c)) as (H1 & H2 & H3);
    [by destruct c..|].
  split; [done|]. split; [by rewrite H2; destruct c|done].
Qed.

(** A video surface: resized twice, then a stray second press. *)
Lemma X1_payload_tracks_frame_witness :
  payload_geometry
    (run_fresh VideoWidget
       [Down (left_at 795 595 845 645); Move (left_at 640 480 690 530);
        Move (left_at 20 2000 70 2050); Down (left_at 1 1 51 51);
        Move (left_at 5 5 55 55)]).1
  = Some (mkQRect 5 5 90 1990).
Proof.
  refine (proj2 (proj2 (X1_payload_tracks_frame VideoWidget
    [Down (left_at 795 595 845 645); Move (left_at 640 480 690 530);
     Move (left_at 20 2000 70 2050); Down (left_at 1 1 51 51);
     Move (left_at 5 5 55 55)] _))).
  unfold concrete. discriminate.
Defined.

Lemma last_global_cons g m ms :
  last_global g (m :: ms) = last_global (globalPosition_toPoint m) ms.
Proof.
  unfold last_global. rewrite last_cons. by destruct (last ms).
Qed.

(** Moves while [dragging] is set add up to one translation. *)
Lemma run_drag_moves moves : ∀ w rest,
  dragging w = true →
  ∃ w', run w ((Move <$> moves) ++ rest) = run w' rest ∧
        dragging w' = true ∧ resizing w' = resizing w ∧
        drag_position w' = last_global (drag_position w) moves ∧
        x w' = x w + (pt_x (drag_position w') - pt_x (drag_position w)) ∧
        y w' = y w + (pt_y (drag_position w') - pt_y (drag_position w)) ∧
        width w' = width w ∧ height w' = height w ∧
        payload_geometry w' = payload_geometry w ∧ hook_calls w' = hook_calls w.
Proof.
  induction moves as [|m moves IH]; intros w rest Hd.
  { exists w. repeat split; try done; cbn; lia. }
  cbn [fmap list_fmap app run handle]. unfold mouseMoveEvent. rewrite Hd.
  set (w1 := set_drag_position _ _).
  destruct (IH w1 rest) as (w' & Hrun & Hd' & Hr' & Hp' & Hx & Hy & Hw & Hh & Hg & Hc);
    [done|].
  exists w'. rewrite last_global_cons. subst w1. simpl in *.
  repeat split; try done; lia.
Qed.

(** X2: a drag from press to release.  After a press with the left button
    away from the corner of an Idle surface, any number of moves and a
    release, the origin has moved by the difference between the global
    position of the last move and that of the press (not at all without a
    move); size, payload geometry and the count of callback calls are as
    before, no exception was raised, and the surface is Idle again. *)
Theorem X2_drag_gesture w press moves release :
  interactionState w = Idle →
  button press = LeftButton →
  is_on_border w (pos press) = false →
  let g0 := globalPosition_toPoint press in
  let g := last_global g0 moves in
  let r := run w (Down press :: (Move <$> moves) ++ [Up release]) in
  r.2 = None ∧
  x r.1 = x w + (pt_x g - pt_x g0) ∧ y r.1 = y w + (pt_y g - pt_y g0) ∧
  width r.1 = width w ∧ height r.1 = height w ∧
  payload_geometry r.1 = payload_geometry w ∧ hook_calls r.1 = hook_calls w ∧
  interactionState r.1 = Idle.
Proof.
  intros Hidle Hb Hoff g0 g r. subst r.
  cbn [run handle]. unfold mousePressEvent. rewrite Hb, Hoff. cbn [is_LeftButton].
  set (w0 := set_drag_position _ _).
  destruct (run_drag_moves moves w0 [Up release])
    as (w' & -> & Hd' & Hr' & Hp' & Hx & Hy & Hw & Hh & Hg & Hc); [done|].
  subst w0 g g0. simpl in *. rewrite Hp' in Hx, Hy.
  repeat split; try done.
Qed.

(** A surface at (150,150) dragged over three positions. *)
Lemma X2_drag_gesture_witness :
  x (run (move BrowserWidget_init 150 150)
         (Down (left_at 400 300 550 450)
          :: (Move <$> [left_at 401 300 551 450; left_at 380 290 530 440;
                        left_at 500 310 650 460])
          ++ [Up (left_at 500 310 650 460)])).1 = 250.
Proof.
  exact (proj1 (proj2 (X2_drag_gesture (move BrowserWidget_init 150 150)
    (left_at 400 300 550 450)
    [left_at 401 300 551 450; left_at 380 290 530 440; left_at 500 310 650 460]
    (left_at 500 310 650 460) eq_refl eq_refl eq_refl))).
Defined.

Lemma mouseMoveEvent_resizing w e :
  concrete (cls w) → dragging w = false → resizing w = true →
  mouseMoveEvent w e
  = (subclass_update_content_geometry
       (resize w (Z.max 100 (pt_x (pos e))) (Z.max 100 (pt_y (pos e)))), None).
Proof.
  unfold concrete. intros Hc Hd Hr.
  unfold mouseMoveEvent, update_content_geometry. rewrite Hd, Hr. simpl.
  by destruct (cls w).
Qed.

(** Moves while only [resizing] is set: the last one decides the size. *)
Lemma run_resize_moves moves : ∀ w rest,
  concrete (cls w) → dragging w = false → resizing w = true →
  ∃ w', run w ((Move <$> moves) ++ rest) = run w' rest ∧
        cls w' = cls w ∧ dragging w' = false ∧ resizing w' = true ∧
        drag_position w' = drag_position w ∧ x w' = x w ∧ y w' = y w ∧
        hook_calls w' = (hook_calls w + length moves)%nat ∧
        match last moves with
        | None => w' = w
        | Some m =>
            width w' = Z.max 100 (pt_x (pos m)) ∧
            height w' = Z.max 100 (pt_y (pos m)) ∧
            payload_geometry w' = Some (inset_rect w')
        end.
Proof.
  induction moves as [|m moves IH]; intros w rest Hc Hd Hr.
  { exists w. cbn. repeat split; try done; lia. }
  cbn [fmap list_fmap app run handle].
  rewrite mouseMoveEvent_resizing by done.
  set (w1 := subclass_update_content_geometry _).
  destruct (IH w1 rest) as (w' & Hrun & Hcls & Hd' & Hr' & Hp & Hx & Hy & Hk & Hl);
    [done..|].
  exists w'. rewrite last_cons. subst w1. simpl in *.
  repeat split; try done; [lia|].
  destruct (last moves); [done|]. by subst w'.
Qed.

(** X3: a resize from press to release.  After a press with the left button
    on the corner of an Idle browser, image or video surface, one or more
    moves and a release, the size is [max(100, pos.x)] by [max(100, pos.y)]
    for the position of the last move alone, the payload sits at
    (5, 5, width-10, height-10), the callback was called once per move, the
    origin is as before, and the surface is Idle again. *)
Theorem X3_resize_gesture w press moves m release :
  concrete (cls w) →
  interactionState w = Idle →
  button press = LeftButton →
  is_on_border w (pos press) = true →
  let r := run w (Down press :: (Move <$> moves ++ [m]) ++ [Up release]) in
  r.2 = None ∧
  width r.1 = Z.max 100 (pt_x (pos m)) ∧ height r.1 = Z.max 100 (pt_y (pos m)) ∧
  payload_geometry r.1 = Some (mkQRect 5 5 (width r.1 - 10) (height r.1 - 10)) ∧
  hook_calls r.1 = (hook_calls w + S (length moves))%nat ∧
  x r.1 = x w ∧ y r.1 = y w ∧
  interactionState r.1 = Idle.
Proof.
  intros Hc Hidle Hb Hon r. subst r.
  assert (dragging w = false) as Hd
    by (unfold interactionState in Hidle; by destruct (dragging w)).
  cbn [run handle]. unfold mousePressEvent. rewrite Hb, Hon. cbn [is_LeftButton].
  destruct (run_resize_moves (moves ++ [m]) (set_resizing w true) [Up release])
    as (w' & -> & Hcls & Hd' & Hr' & Hp & Hx & Hy & Hk & Hl); [done..|].
  rewrite last_snoc in Hl. destruct Hl as (Hw & Hh & Hg).
  rewrite length_app in Hk. simpl in *. unfold inset_rect in Hg.
  repeat split; try done. lia.
Qed.

(** A browser surface pulled small: the last move is at (40,250). *)
Lemma X3_resize_gesture_witness :
  width (run BrowserWidget_init
           (Down (left_at 795 595 945 745)
            :: (Move <$> [left_at 900 700 1050 850] ++ [left_at 40 250 190 400])
            ++ [Up (left_at 40 250 190 400)])).1 = 100.
Proof.
  refine (proj1 (proj2 (X3_resize_gesture BrowserWidget_init
    (left_at 795 595 945 745) [left_at 900 700 1050 850] (left_at 40 250 190 400)
    (left_at 40 250 190 400) _ eq_refl eq_refl eq_refl))).
  unfold concrete. discriminate.
Defined.

(** X4: after a move while Resizing, the pointer is on the corner of the
    new size, so that a later press there resizes again, exactly when its
    position is at least 90 in both coordinates; where the floor of 100 has
    cut in below that, the same position is no longer on the corner. *)
Theorem X4_corner_follows_pointer w e :
  dragging w = false → resizing w = true →
  is_on_border (mouseMoveEvent w e).1 (pos e) = true
  ↔ 90 ≤ pt_x (pos e) ∧ 90 ≤ pt_y (pos e).
Proof.
  intros Hd Hr. rewrite is_on_border_spec.
  unfold mouseMoveEvent, update_content_geometry. rewrite Hd, Hr. simpl.
  destruct (cls w); simpl; lia.
Qed.

(** Pulled to (95,400): the width is 100 and (95,400) is on the corner. *)
Lemma X4_corner_follows_pointer_witness :
  is_on_border
    (mouseMoveEvent (mousePressEvent ImageWidget_init (left_at 795 595 845 645))
                    (left_at 95 400 145 450)).1
    (mkQPoint 95 400) = true.
Proof.
  refine (proj2 (X4_corner_follows_pointer
    (mousePressEvent ImageWidget_init (left_at 795 595 845 645))
    (left_at 95 400 145 450) eq_refl eq_refl) _).
  simpl. lia.
Defined.

(** X5: [mouseMoveEvent] raises exactly on an instance of the base class
    [DragResizeWidget] that has [resizing] set and [dragging] not set; the
    exception is [NotImplementedError], it comes after the widget was
    resized, and it ends the run. *)
Theorem X5_base_class_raises_on_resize w e rest :
  ((mouseMoveEvent w e).2 = Some NotImplementedError
   ↔ cls w = DragResizeWidget ∧ dragging w = false ∧ resizing w = true) ∧
  ((mouseMoveEvent w e).2 = None ∨ (mouseMoveEvent w e).2 = Some NotImplementedError) ∧
  (cls w = DragResizeWidget → dragging w = false → resizing w = true →
     run w (Move e :: rest)
     = (enter_hook (resize w (Z.max 100 (pt_x (pos e))) (Z.max 100 (pt_y (pos e)))),
        Some NotImplementedError)).
Proof.
  split; [|split].
  - unfold mouseMoveEvent, update_content_geometry.
    destruct (dragging w); [naive_solver|].
    destruct (resizing w); [|naive_solver].
    simpl. destruct (cls w); naive_solver.
  - unfold mouseMoveEvent, update_content_geometry.
    destruct (dragging w); [by left|].
    destruct (resizing w); [|by left].
    simpl. destruct (cls w); auto.
  - intros Hc Hd Hr. cbn [run handle].
    unfold mouseMoveEvent, update_content_geometry. rewrite Hd, Hr. simpl.
    by rewrite Hc.
Qed.

(** The base class, pressed on the corner and moved. *)
Lemma X5_base_class_raises_on_resize_witness :
  run (mousePressEvent (DragResizeWidget_init DragResizeWidget)
                       (left_at 795 595 845 645))
      [Move (left_at 300 50 350 100); Up (left_at 300 50 350 100)]
  = (enter_hook (resize (mousePressEvent (DragResizeWidget_init DragResizeWidget)
                                         (left_at 795 595 845 645)) 300 100),
     Some NotImplementedError).
Proof.
  exact (proj2 (proj2 (X5_base_class_raises_on_resize
    (mousePressEvent (DragResizeWidget_init DragResizeWidget) (left_at 795 595 845 645))
    (left_at 300 50 350 100) [Up (left_at 300 50 350 100)])) eq_refl eq_refl eq_refl).
Defined.

Lemma mouseReleaseEvent_idle w e :
  dragging w = false → resizing w = false → mouseReleaseEvent w e = w.
Proof. destruct w. simpl. by intros -> ->. Qed.

Lemma run_no_left_press evs : ∀ w,
  dragging w = false → resizing w = false →
  no_left_press evs = true → run w evs = (w, None).
Proof.
  induction evs as [|ev evs IH]; intros w Hd Hr Hn; [done|].
  apply andb_true_iff in Hn as [Hev Hn]. cbn [run].
  destruct ev as [e|e|e]; simpl.
  - unfold mousePressEvent. apply negb_true_iff in Hev. rewrite Hev. by apply IH.
  - unfold mouseMoveEvent. rewrite Hd, Hr. by apply IH.
  - rewrite mouseReleaseEvent_idle by done. by apply IH.
Qed.

(** X7: as long as no press with the left button arrives, nothing happens
    to a new surface of any class: moves (hovering), releases and presses
    with other buttons leave origin, size, flags, payload geometry and the
    count of callback calls as the constructor set them, and raise
    nothing. *)
Theorem X7_nothing_happens_without_left_press c evs :
  no_left_press evs = true → run_fresh c evs = (construct c, None).
Proof.
  intros Hn. unfold run_fresh.
  by apply run_no_left_press; [destruct c..|].
Qed.

(** Hovering, a press with the right button and a stray release. *)
Lemma X7_nothing_happens_witness :
  run_fresh DragResizeWidget
    [Move (left_at 795 595 845 645);
     Down (mkQMouseEvent RightButton (mkQPoint 795 595) (mkQPoint 845 645));
     Move (left_at 10 10 60 60); Up (left_at 10 10 60 60)]
  = (construct DragResizeWidget, None).
Proof.
  exact (X7_nothing_happens_without_left_press DragResizeWidget
    [Move (left_at 795 595 845 645);
     Down (mkQMouseEvent RightButton (mkQPoint 795 595) (mkQPoint 845 645));
     Move (left_at 10 10 60 60); Up (left_at 10 10 60 60)] eq_refl).
Defined.

(** * Further properties of the address list *)

Lemma lstrip_spec s :
  ∃ k, s = k ++ lstrip s ∧ forallb isspace k = true ∧
       match lstrip s with [] => True | c :: _ => isspace c = false end.
Proof.
  induction s as [|c s (k & Hk & Hsp & Hhd)]; [by exists []|].
  simpl. destruct (isspace c) eqn:Hc.
  - exists (c :: k). simpl. rewrite Hc, Hsp. by rewrite <- Hk.
  - by exists [].
Qed.

Lemma lstrip_head c t : isspace c = false → lstrip (c :: t) = c :: t.
Proof. intros Hc. simpl. by rewrite Hc. Qed.

Lemma lstrip_idemp s : lstrip (lstrip s) = lstrip s.
Proof.
  destruct (lstrip_spec s) as (k & _ & _ & Hhd).
  destruct (lstrip s) as [|c t]; [done|]. by apply lstrip_head.
Qed.

Lemma elem_of_lstrip s c : c ∈ lstrip s → c ∈ s.
Proof.
  destruct (lstrip_spec s) as (k & Hk & _). intros Hin.
  rewrite Hk, elem_of_app. by right.
Qed.

Lemma elem_of_strip s c : c ∈ strip s → c ∈ s.
Proof.
  unfold strip, rstrip. rewrite elem_of_reverse.
  intros Hin%elem_of_lstrip. rewrite elem_of_reverse in Hin.
  by apply elem_of_lstrip.
Qed.

(** What [strip] returns has no white space at its ends: stripping it
    again changes nothing. *)
Lemma strip_idemp s : strip (strip s) = strip s.
Proof.
  unfold strip. set (t := lstrip s).
  assert (Ht : lstrip t = t) by apply lstrip_idemp.
  assert (Hl : lstrip (rstrip t) = rstrip t).
  { unfold rstrip. destruct (lstrip_spec (reverse t)) as (k & Hk & _).
    apply (f_equal reverse) in Hk. rewrite reverse_involutive, reverse_app in Hk.
    destruct (reverse (lstrip (reverse t))) as [|c r] eqn:Hr; [done|].
    rewrite Hk in Ht. simpl in Ht. simpl.
    destruct (isspace c); [|done].
    pose proof (lstrip_length (r ++ reverse k)) as Hlen.
    rewrite Ht in Hlen. simpl in Hlen. lia. }
  rewrite Hl. unfold rstrip. by rewrite reverse_involutive, lstrip_idemp.
Qed.

Lemma lstrip_app_space s t : forallb isspace s = true → lstrip (s ++ t) = lstrip t.
Proof.
  induction s as [|c s IH]; [done|]. simpl.
  intros [Hc Hs]%andb_true_iff. rewrite Hc. by apply IH.
Qed.

Lemma lstrip_app_nonspace s t :
  forallb isspace s = false → lstrip (s ++ t) = lstrip s ++ t.
Proof.
  induction s as [|c s IH]; [done|]. simpl.
  destruct (isspace c); [|done]. simpl. apply IH.
Qed.

(** A line end after the line does not change the entry. *)
Lemma strip_line_end s : strip (s ++ [LF]) = strip s.
Proof.
  unfold strip. destruct (forallb isspace s) eqn:Hs.
  - rewrite lstrip_app_space by done.
    pose proof (lstrip_app_space s [] Hs) as Hn. rewrite app_nil_r in Hn.
    by rewrite Hn.
  - rewrite lstrip_app_nonspace by done. unfold rstrip.
    by rewrite reverse_app.
Qed.

Lemma universal_newlines_no_CR s : ∀ b, CR ∉ universal_newlines b s.
Proof.
  induction s as [|c s IH]; intros b; [apply not_elem_of_nil|].
  simpl. destruct (c =? CR)%N eqn:Hc.
  { apply not_elem_of_cons. split; [done|apply IH]. }
  destruct (c =? LF)%N; [destruct b|]; try apply IH;
    (apply not_elem_of_cons; split; [|apply IH]).
  - done.
  - by apply N.eqb_neq in Hc.
Qed.

(** Every line of a text has its characters from the text, and no line end
    but at its end. *)
Lemma split_lines_line s : ∀ cur line,
  LF ∉ cur → line ∈ split_lines cur s →
  ∃ body, (line = body ++ [LF] ∨ line = body) ∧ (LF ∉ body) ∧
          ∀ c, c ∈ body → c ∈ cur ∨ c ∈ s.
Proof.
  induction s as [|c s IH]; intros cur line Hcur Hin.
  { simpl in Hin. destruct cur as [|d cur]; [by apply elem_of_nil in Hin|].
    apply list_elem_of_singleton in Hin as ->.
    exists (reverse (d :: cur)). split; [by right|].
    split; [by rewrite elem_of_reverse|].
    intros c Hc. left. by rewrite elem_of_reverse in Hc. }
  simpl in Hin. destruct (c =? LF)%N eqn:Hc.
  - apply elem_of_cons in Hin as [->|Hin].
    + exists (reverse cur). rewrite reverse_cons. apply N.eqb_eq in Hc as ->.
      split; [by left|]. split; [by rewrite elem_of_reverse|].
      intros c Hc. left. by rewrite elem_of_reverse in Hc.
    + destruct (IH [] line) as (body & Hb & Hlf & Hsub);
        [apply not_elem_of_nil|done|].
      exists body. split; [done|]. split; [done|].
      intros d Hd. right. destruct (Hsub d Hd) as [?%elem_of_nil|?]; [done|].
      by right.
  - destruct (IH (c :: cur) line) as (body & Hb & Hlf & Hsub); [|done|].
    { apply not_elem_of_cons. split; [|done]. by apply N.eqb_neq in Hc. }
    exists body. split; [done|]. split; [done|].
    intros d Hd. destruct (Hsub d Hd) as [[->|?]%elem_of_cons|?].
    + right. by left.
    + by left.
    + right. by right.
Qed.

Lemma elem_of_read_urls_from_config content u :
  u ∈ read_urls_from_config (Some content)
  ↔ u ≠ [] ∧ ∃ line, line ∈ file_lines content ∧ u = strip line.
Proof.
  simpl. rewrite (proj1 (read_lines_spec _)). unfold listAll_spec.
  rewrite elem_of_first_occurrences, list_elem_of_filter, list_elem_of_fmap.
  naive_solver.
Qed.

(** X8: every address that [read_urls_from_config] returns is not empty,
    has no white space at its ends and contains neither a line feed nor a
    carriage return, whatever the file holds. *)
Theorem X8_entries_are_clean file u :
  u ∈ read_urls_from_config file →
  u ≠ [] ∧ strip u = u ∧ (LF ∉ u) ∧ (CR ∉ u).
Proof.
  destruct file as [content|]; [|by intros ?%elem_of_nil].
  intros (Hne & line & Hline & ->)%elem_of_read_urls_from_config.
  split; [done|]. split; [apply strip_idemp|].
  unfold file_lines in Hline.
  destruct (split_lines_line _ [] line (not_elem_of_nil _) Hline)
    as (body & Hb & Hlf & Hsub).
  assert (Hs : strip line = strip body)
    by (destruct Hb as [-> | ->]; [apply strip_line_end|done]).
  rewrite Hs. split.
  - intros Hin%elem_of_strip. done.
  - intros Hin%elem_of_strip. destruct (Hsub _ Hin) as [?%elem_of_nil|Hcr]; [done|].
    by apply universal_newlines_no_CR in Hcr.
Qed.

(** A file with white space, blank lines and all three kinds of line end. *)
Lemma X8_entries_are_clean_witness :
  strip (py "https://a.com") = py "https://a.com".
Proof.
  refine (proj1 (proj2 (X8_entries_are_clean
    (Some ([32; 9]%N ++ py "https://a.com" ++ [32; 13; 10; 13; 32; 10]%N
           ++ py "b" ++ [13]%N)) (py "https://a.com") _))).
  apply (bool_decide_unpack _). vm_compute. exact I.
Defined.

Lemma universal_newlines_terminated c : ∀ b,
  c ≠ [] → terminated c = true →
  (∃ u, universal_newlines b c = u ++ [LF]) ∨ (b = true ∧ c = [LF]).
Proof.
  unfold terminated.
  induction c as [|d c IH]; intros b Hne Ht; [done|].
  destruct (decide (c = [])) as [->|Hc].
  - simpl in *. destruct (d =? CR)%N eqn:Hcr; [left; by exists []|].
    rewrite orb_false_r in Ht. rewrite Ht. apply N.eqb_eq in Ht as ->.
    destruct b; [by right|left; by exists []].
  - rewrite last_cons in Ht.
    assert (Ht' : match last c with
                  | Some d0 => ((d0 =? LF) || (d0 =? CR))%N
                  | None => true
                  end = true).
    { destruct (last c) eqn:Hl; [done|]. by apply last_None in Hl. }
    clear Ht. cbn [universal_newlines].
    destruct (d =? CR)%N eqn:Hcr.
    { destruct (IH true Hc Ht') as [[u Hu]|[_ Hc']].
      - left. exists (LF :: u). by rewrite Hu.
      - left. exists []. by rewrite Hc'. }
    assert (Hfalse : ∃ u, universal_newlines false c = u ++ [LF]).
    { by destruct (IH false Hc Ht') as [?|[? _]]. }
    destruct Hfalse as [u Hu]. left.
    destruct (d =? LF)%N; [destruct b|]; rewrite Hu;
      first [by exists u | by exists (LF :: u) | by exists (d :: u)].
Qed.

Lemma file_lines_plain_line pf a :
  plain a → file_lines (a ++ linesep pf) = [a ++ [LF]].
Proof.
  intros (Hne & _ & Hcr & Hlf). unfold file_lines.
  rewrite universal_newlines_plain by done.
  replace (universal_newlines false (linesep pf)) with [LF] by by destruct pf.
  by rewrite split_lines_plain.
Qed.

(** After a text that is empty or ends with a line end, the written line
    is read as one more line. *)
Lemma file_lines_append_terminated pf c a :
  terminated c = true → plain a →
  file_lines (c ++ a ++ linesep pf) = file_lines c ++ [a ++ [LF]].
Proof.
  intros Ht Hp. destruct (decide (c = [])) as [->|Hne].
  { by apply file_lines_plain_line. }
  pose proof (file_lines_plain_line pf a Hp) as Hline.
  destruct Hp as (Hane & _ & Hcr & Hlf). unfold file_lines in *.
  rewrite universal_newlines_app_plain by done.
  rewrite universal_newlines_plain in Hline by done.
  destruct (universal_newlines_terminated c false Hne Ht) as [[u Hu]|[? _]];
    [|done].
  rewrite Hu, <- app_assoc. cbn [app]. rewrite split_lines_app.
  by rewrite Hline.
Qed.

Lemma terminated_append pf c a : terminated (c ++ a ++ linesep pf) = true.
Proof.
  unfold terminated.
  replace (c ++ a ++ linesep pf)
    with ((c ++ a ++ match pf with Posix => [] | Nt => [CR] end) ++ [LF])
    by (destruct pf; by rewrite <- !app_assoc).
  by rewrite last_snoc.
Qed.

Lemma write_url_to_config_plain pf file a :
  plain a → a ∉ read_urls_from_config file →
  write_url_to_config pf file a = Some (default [] file ++ a ++ linesep pf).
Proof.
  intros (_ & _ & _ & Hlf) Hnin. unfold write_url_to_config, append_text.
  rewrite bool_decide_true by done. by rewrite write_translate_plain.
Qed.

Lemma read_urls_from_config_default file :
  read_urls_from_config file = (read_lines (file_lines (default [] file))).1.
Proof. by destruct file. Qed.

Lemma write_url_to_config_read pf file a :
  terminated (default [] file) = true → plain a →
  let file' := write_url_to_config pf file a in
  read_urls_from_config file'
  = (if decide (a ∈ read_urls_from_config file)
     then read_urls_from_config file
     else read_urls_from_config file ++ [a]) ∧
  a ∈ read_urls_from_config file' ∧
  (a ∈ read_urls_from_config file → file' = file) ∧
  write_url_to_config pf file' a = file' ∧
  terminated (default [] file') = true.
Proof.
  intros Ht Hp file'.
  destruct (decide (a ∈ read_urls_from_config file)) as [Hin|Hnin].
  - assert (Hsame : file' = file).
    { subst file'. unfold write_url_to_config.
      by rewrite bool_decide_false by naive_solver. }
    rewrite Hsame. by repeat split.
  - assert (Hnew : file' = Some (default [] file ++ a ++ linesep pf))
      by by apply write_url_to_config_plain.
    assert (Hread : read_urls_from_config file' = read_urls_from_config file ++ [a]).
    { rewrite Hnew. cbn [read_urls_from_config].
      rewrite file_lines_append_terminated by done.
      rewrite read_lines_snoc_urls, <- read_urls_from_config_default.
      destruct Hp as (Hne & Hs & _ & _).
      rewrite strip_line by done. by rewrite decide_True. }
    assert (Hin' : a ∈ read_urls_from_config file').
    { rewrite Hread, elem_of_app, list_elem_of_singleton. by right. }
    repeat split; try done.
    + unfold write_url_to_config. by rewrite bool_decide_false by naive_solver.
    + rewrite Hnew. cbn [default from_option]. apply terminated_append.
Qed.

(** X9: writing and reading back.  On a file that is missing, empty or ends
    with a line end, [write_url_to_config] with a plain address that
    [read_urls_from_config] does not return yet puts it at the end of what
    [read_urls_from_config] returns and changes nothing else there; with
    one that it returns already the file stays.  Either way the address is
    returned afterwards, the file ends with a line end again, and writing
    the same address once more changes nothing. *)
Theorem X9_write_then_read pf file a :
  terminated (default [] file) = true → plain a →
  let file' := write_url_to_config pf file a in
  read_urls_from_config file'
  = (if decide (a ∈ read_urls_from_config file)
     then read_urls_from_config file
     else read_urls_from_config file ++ [a]) ∧
  a ∈ read_urls_from_config file' ∧
  (a ∈ read_urls_from_config file → file' = file) ∧
  write_url_to_config pf file' a = file' ∧
  terminated (default [] file') = true.
Proof. apply write_url_to_config_read. Qed.

Lemma plain_a_com : plain (py "https://a.com").
Proof. apply a_com_plain. Qed.

(** A file with one address, written by a Windows editor. *)
Lemma X9_write_then_read_witness :
  read_urls_from_config
    (write_url_to_config Posix (Some (py "https://x.com" ++ [CR; LF])) (py "https://a.com"))
  = [py "https://x.com"; py "https://a.com"].
Proof.
  refine (proj1 (X9_write_then_read Posix (Some (py "https://x.com" ++ [CR; LF]))
                   (py "https://a.com") eq_refl _)).
  split; [discriminate|]. split; [by vm_compute|].
  split; apply (bool_decide_unpack _); by vm_compute.
Defined.

Lemma universal_newlines_last c d : ∀ b,
  last c = Some d → d ≠ LF → d ≠ CR → last (universal_newlines b c) = Some d.
Proof.
  induction c as [|e c IH]; intros b Hl Hlf Hcr; [done|].
  destruct (decide (c = [])) as [->|Hc].
  - simpl in *. inversion Hl; subst e.
    by rewrite (proj2 (N.eqb_neq d CR)), (proj2 (N.eqb_neq d LF)).
  - rewrite last_cons in Hl.
    assert (Hl' : last c = Some d).
    { destruct (last c) eqn:Hlc; [done|]. by apply last_None in Hlc. }
    assert (Hsnoc : ∀ b' pre, last (pre ++ universal_newlines b' c) = Some d).
    { intros b' pre. specialize (IH b' Hl' Hlf Hcr).
      destruct (universal_newlines b' c) as [|z r] using rev_ind; [done|].
      rewrite app_assoc, last_snoc. by rewrite last_snoc in IH. }
    cbn [universal_newlines].
    destruct (e =? CR)%N; [apply (Hsnoc true [LF])|].
    destruct (e =? LF)%N; [destruct b|].
    + apply (Hsnoc false []).
    + apply (Hsnoc false [LF]).
    + apply (Hsnoc false [e]).
Qed.

(** A text whose last line has no line end: a further line is glued to
    that line. *)
Lemma split_lines_unterminated s : ∀ cur,
  s ≠ [] ∨ cur ≠ [] → last s ≠ Some LF →
  ∃ lines l, l ≠ [] ∧ split_lines cur s = lines ++ [l] ∧
    ∀ t, LF ∉ t → split_lines cur (s ++ t ++ [LF]) = lines ++ [l ++ t ++ [LF]].
Proof.
  induction s as [|c s IH]; intros cur Hne Hl.
  { destruct Hne as [?|Hcur]; [done|]. exists [], (reverse cur).
    split; [|split].
    - intros Hr. apply (f_equal reverse) in Hr.
      by rewrite reverse_involutive in Hr.
    - simpl. by destruct cur.
    - intros t Ht. simpl. by apply split_lines_plain. }
  assert (Hl' : s ≠ [] → last s ≠ Some LF).
  { intros Hs. rewrite last_cons in Hl. destruct (last s) eqn:Hls; [done|].
    by apply last_None in Hls. }
  simpl. destruct (c =? LF)%N eqn:Hc.
  - apply N.eqb_eq in Hc as ->.
    assert (Hs : s ≠ []) by by intros ->.
    destruct (IH []) as (lines & l & Hlne & Hsp & Hglue); [by left|by apply Hl'|].
    exists (reverse (LF :: cur) :: lines), l. split; [done|].
    split; [by rewrite Hsp|]. intros t Ht. by rewrite Hglue.
  - destruct (IH (c :: cur)) as (lines & l & Hlne & Hsp & Hglue); [by right| |].
    { destruct (decide (s = [])) as [->|Hs]; [done|by apply Hl']. }
    exists lines, l. split; [done|]. split; [done|].
    intros t Ht. by apply Hglue.
Qed.

Lemma rstrip_app_fixed k a :
  a ≠ [] → lstrip (reverse a) = reverse a → rstrip (k ++ a) = k ++ a.
Proof.
  intros Hne Hr. unfold rstrip. rewrite reverse_app.
  destruct (reverse a) as [|z r] eqn:Hrev.
  { apply (f_equal reverse) in Hrev. by rewrite reverse_involutive in Hrev. }
  simpl in Hr |- *. destruct (isspace z).
  - pose proof (lstrip_length r) as Hlen. rewrite Hr in Hlen. simpl in Hlen. lia.
  - change (z :: r ++ reverse k) with ((z :: r) ++ reverse k).
    by rewrite <- Hrev, <- reverse_app, reverse_involutive.
Qed.

(** An address behind the rest of a line is the entry of that line exactly
    when the rest is white space. *)
Lemma strip_glued l a : plain a → strip (l ++ a) = a ↔ forallb isspace l = true.
Proof.
  intros (Hne & Hs & _). destruct (strip_fixed a Hs) as [Hl Hr].
  unfold strip. destruct (forallb isspace l) eqn:Hsp.
  - rewrite lstrip_app_space by done. done.
  - rewrite lstrip_app_nonspace by done.
    rewrite rstrip_app_fixed by done. split; [|done].
    intros Heq. apply (f_equal length) in Heq. rewrite length_app in Heq.
    destruct (lstrip l) as [|c t] eqn:Hls; [|simpl in Heq; lia].
    destruct (lstrip_spec l) as (k & Hk & Hall & _).
    rewrite Hls, app_nil_r in Hk. subst k. congruence.
Qed.

(** X10: writing to a file whose last line has no line end.  The file has
    then a last line [l] that is not empty, and [write_url_to_config] with a
    plain address that [read_urls_from_config] does not return puts the
    address on that line, behind [l]: the lines before stay, the last line
    becomes [l] followed by the address.  [read_urls_from_config] returns
    the address afterwards only if [l] was white space. *)
Theorem X10_glued_to_unterminated_line pf c a :
  terminated c = false → plain a → a ∉ read_urls_from_config (Some c) →
  ∃ lines l,
    l ≠ [] ∧ file_lines c = lines ++ [l] ∧
    write_url_to_config pf (Some c) a = Some (c ++ a ++ linesep pf) ∧
    file_lines (c ++ a ++ linesep pf) = lines ++ [l ++ a ++ [LF]] ∧
    (a ∈ read_urls_from_config (write_url_to_config pf (Some c) a)
     ↔ forallb isspace l = true).
Proof.
  intros Ht Hp Hnin. unfold terminated in Ht.
  destruct (last c) as [d|] eqn:Hlast; [|done].
  apply orb_false_iff in Ht as [Hlf%N.eqb_neq Hcr%N.eqb_neq].
  pose proof (universal_newlines_last c d false Hlast Hlf Hcr) as Hul.
  destruct (split_lines_unterminated (universal_newlines false c) [])
    as (lines & l & Hlne & Hsp & Hglue).
  { left. intros Hnil. by rewrite Hnil in Hul. }
  { rewrite Hul. intros [= ->]. done. }
  exists lines, l.
  assert (Hw : write_url_to_config pf (Some c) a = Some (c ++ a ++ linesep pf))
    by by apply write_url_to_config_plain.
  assert (Hlines : file_lines (c ++ a ++ linesep pf) = lines ++ [l ++ a ++ [LF]]).
  { unfold file_lines. destruct Hp as (Hne & _ & Hacr & Half).
    rewrite universal_newlines_app_plain by done.
    replace (universal_newlines false (linesep pf)) with [LF] by by destruct pf.
    by apply Hglue. }
  split; [done|]. split; [done|]. split; [done|]. split; [done|].
  rewrite Hw. cbn [read_urls_from_config] in *. rewrite Hlines.
  unfold file_lines in Hnin. rewrite Hsp in Hnin.
  rewrite read_lines_snoc_urls in Hnin |- *.
  rewrite !app_assoc, strip_line_end, <- strip_glued by done.
  assert (Hbefore : a ∉ (read_lines lines).1).
  { intros Hin. apply Hnin. case_decide; [|done].
    rewrite elem_of_app. by left. }
  destruct (decide (strip (l ++ a) ≠ [] ∧ strip (l ++ a) ∉ (read_lines lines).1))
    as [Hd|Hd].
  - rewrite elem_of_app, list_elem_of_singleton. naive_solver.
  - split; [done|]. intros Heq. rewrite Heq in Hd.
    destruct Hp as (Hne & _). naive_solver.
Qed.

(** A file that ends in the middle of a line. *)
Lemma X10_glued_witness :
  ∃ lines l,
    l ≠ [] ∧ file_lines (py "https://x.com" ++ [LF] ++ py "https://y.co") = lines ++ [l] ∧
    write_url_to_config Nt (Some (py "https://x.com" ++ [LF] ++ py "https://y.co"))
                        (py "https://a.com")
    = Some ((py "https://x.com" ++ [LF] ++ py "https://y.co")
            ++ py "https://a.com" ++ linesep Nt) ∧
    file_lines ((py "https://x.com" ++ [LF] ++ py "https://y.co")
                ++ py "https://a.com" ++ linesep Nt)
    = lines ++ [l ++ py "https://a.com" ++ [LF]] ∧
    (py "https://a.com"
       ∈ read_urls_from_config
           (write_url_to_config Nt (Some (py "https://x.com" ++ [LF] ++ py "https://y.co"))
                                (py "https://a.com"))
     ↔ forallb isspace l = true).
Proof.
  refine (X10_glued_to_unterminated_line Nt
            (py "https://x.com" ++ [LF] ++ py "https://y.co") (py "https://a.com")
            eq_refl _ _).
  - split; [discriminate|]. split; [by vm_compute|].
    split; apply (bool_decide_unpack _); by vm_compute.
  - apply (bool_decide_unpack _). by vm_compute.
Defined.

(** ** The lists of the dialog *)

Lemma add_url_lists pf d a ok :
  combobox_items d = urls d → NoDup (urls d) → [] ∉ urls d →
  let d' := add_url pf d a ok in
  combobox_items d' = urls d' ∧ NoDup (urls d') ∧ ([] ∉ urls d') ∧
  urls d `prefix_of` urls d' ∧
  ∀ u, u ∈ urls d' ↔ u ∈ urls d ∨ (u ≠ [] ∧ u = a ∧ ok = true).
Proof.
  intros Hc Hnd Hne d'. subst d'. unfold add_url.
  destruct ok; cbn [andb]; [|by repeat split; naive_solver].
  destruct (decide (a = [])) as [->|Ha].
  { rewrite bool_decide_false by naive_solver. by repeat split; naive_solver. }
  rewrite bool_decide_true by done.
  destruct (decide (a ∈ urls d)) as [Hin|Hnin].
  - rewrite bool_decide_false by naive_solver. cbn.
    repeat split; try done; naive_solver.
  - rewrite bool_decide_true by done. cbn. rewrite Hc.
    split; [done|]. split; [|split; [|split]].
    + apply NoDup_app. split; [done|]. split; [|apply NoDup_singleton].
      intros u Hu ->%list_elem_of_singleton. done.
    + rewrite elem_of_app, list_elem_of_singleton. naive_solver.
    + by apply prefix_app_r.
    + intros u. rewrite elem_of_app, list_elem_of_singleton. naive_solver.
Qed.

Lemma add_urls_lists pf inputs : ∀ d,
  combobox_items d = urls d → NoDup (urls d) → [] ∉ urls d →
  let d' := add_urls pf d inputs in
  combobox_items d' = urls d' ∧ NoDup (urls d') ∧ ([] ∉ urls d') ∧
  urls d `prefix_of` urls d' ∧
  ∀ u, u ∈ urls d' ↔ u ∈ urls d ∨ (u ≠ [] ∧ (u, true) ∈ inputs).
Proof.
  induction inputs as [|[a ok] inputs IH]; intros d Hc Hnd Hne.
  { cbn. repeat split; try done. { intros ?. by left. }
    intros [?|[_ ?%elem_of_nil]]; done. }
  destruct (add_url_lists pf d a ok Hc Hnd Hne) as (Hc1 & Hnd1 & Hne1 & Hpre1 & Hin1).
  destruct (IH (add_url pf d a ok) Hc1 Hnd1 Hne1) as (Hc2 & Hnd2 & Hne2 & Hpre2 & Hin2).
  cbn [add_urls foldl] in *. fold (add_urls pf (add_url pf d a ok) inputs) in *.
  split; [done|]. split; [done|]. split; [done|]. split; [by etrans|].
  intros u. rewrite Hin2, Hin1, elem_of_cons. naive_solver.
Qed.

(** X11: the lists of the dialog.  After [setup_ui] and any results of the
    input dialog handed to [add_url], the items of the combo box are the
    list [urls], no address is in it twice, the empty address is not in it,
    it starts with what [read_urls_from_config] returned when the dialog
    was set up, and an address is in it exactly if it was returned then or
    was entered, not empty, with the dialog accepted. *)
Theorem X11_dialog_lists pf file inputs :
  let d := add_urls pf (setup_ui file) inputs in
  combobox_items d = urls d ∧ NoDup (urls d) ∧ ([] ∉ urls d) ∧
  read_urls_from_config file `prefix_of` urls d ∧
  ∀ u, u ∈ urls d
       ↔ u ∈ read_urls_from_config file ∨ (u ≠ [] ∧ (u, true) ∈ inputs).
Proof.
  apply (add_urls_lists pf inputs (setup_ui file)); cbn.
  - done.
  - apply NoDup_read_urls_from_config.
  - intros Hin. destruct file as [content|]; [|by apply elem_of_nil in Hin].
    apply elem_of_read_urls_from_config in Hin as [? _]. done.
Qed.

Lemma write_url_to_config_grows pf file a :
  is_Some (write_url_to_config pf file a) ∧
  default [] file `prefix_of` default [] (write_url_to_config pf file a).
Proof.
  unfold write_url_to_config, append_text. case_bool_decide as Hin.
  - split; [done|]. cbn. by apply prefix_app_r.
  - split; [|done]. destruct file; [done|].
    by apply elem_of_nil in Hin.
Qed.

Lemma add_url_grows pf d a ok :
  default [] (config d) `prefix_of` default [] (config (add_url pf d a ok)) ∧
  (is_Some (config d) ∨ (a ≠ [] ∧ ok = true) → is_Some (config (add_url pf d a ok))).
Proof.
  destruct (write_url_to_config_grows pf (config d) a) as [Hs Hp].
  unfold add_url. destruct ok; cbn [andb]; [|naive_solver].
  case_bool_decide; [|naive_solver].
  by destruct (bool_decide (a ∉ urls d)); cbn.
Qed.

(** X12: the file only grows.  Whatever results of the input dialog are
    handed to [add_url], the text that the file held before is the
    beginning of the text it holds afterwards, a file that existed still
    exists, and after an accepted address that is not empty the file exists
    even if it was missing before. *)
Theorem X12_file_only_grows pf d inputs :
  default [] (config d)
    `prefix_of` default [] (config (add_urls pf d inputs)) ∧
  (is_Some (config d) ∨ (∃ u, u ≠ [] ∧ (u, true) ∈ inputs) →
     is_Some (config (add_urls pf d inputs))).
Proof.
  revert d. induction inputs as [|[a ok] inputs IH]; intros d.
  { cbn. split; [done|]. intros [?|[u [_ ?%elem_of_nil]]]; done. }
  destruct (add_url_grows pf d a ok) as [Hp1 Hs1].
  destruct (IH (add_url pf d a ok)) as [Hp2 Hs2].
  cbn [add_urls foldl] in *. fold (add_urls pf (add_url pf d a ok) inputs) in *.
  split; [by etrans|].
  intros [Hs|(u & Hu & [[= -> <-]|Hin]%elem_of_cons)].
  - apply Hs2. left. apply Hs1. by left.
  - apply Hs2. left. apply Hs1. by right.
  - apply Hs2. right. by exists u.
Qed.

(** A cancelled input, then an address, with no file at the start. *)
Lemma X12_file_only_grows_witness :
  is_Some (config (add_urls Posix (setup_ui None)
                     [(py "https://x.com", false); (py "https://a.com", true)])).
Proof.
  refine (proj2 (X12_file_only_grows Posix (setup_ui None)
            [(py "https://x.com", false); (py "https://a.com", true)]) _).
  right. exists (py "https://a.com"). split; [discriminate|].
  apply (bool_decide_unpack _). by vm_compute.
Defined.

Lemma add_url_agrees pf d a ok :
  usual_input (a, ok) →
  urls d = read_urls_from_config (config d) →
  terminated (default [] (config d)) = true →
  urls (add_url pf d a ok) = read_urls_from_config (config (add_url pf d a ok)) ∧
  terminated (default [] (config (add_url pf d a ok))) = true.
Proof.
  intros Hu Hsync Ht. unfold add_url.
  destruct ok; cbn [andb]; [|done].
  destruct (decide (a = [])) as [->|Ha].
  { by rewrite bool_decide_false by naive_solver. }
  rewrite bool_decide_true by done.
  destruct Hu as [?|[?|Hp]]; [done..|]. cbn in Hp.
  destruct (write_url_to_config_read pf (config d) a Ht Hp)
    as (Hread & _ & _ & _ & Ht').
  rewrite <- Hsync in Hread.
  destruct (decide (a ∈ urls d)) as [Hin|Hnin].
  - rewrite bool_decide_false by naive_solver. cbn. by rewrite Hread.
  - rewrite bool_decide_true by done. cbn. by rewrite Hread.
Qed.

(** X13: the dialog and the file agree.  When the file is missing, empty or
    ends with a line end as the dialog is set up, and every result of the
    input dialog is a cancellation, an empty text or a plain address, then
    after any number of [add_url] the list [urls] of the dialog is what
    [read_urls_from_config] returns for the file, and the file ends with a
    line end. *)
Theorem X13_dialog_agrees_with_file pf file inputs :
  terminated (default [] file) = true →
  Forall usual_input inputs →
  let d := add_urls pf (setup_ui file) inputs in
  urls d = read_urls_from_config (config d) ∧
  combobox_items d = read_urls_from_config (config d) ∧
  terminated (default [] (config d)) = true.
Proof.
  intros Ht Hin d.
  assert (Hgen : ∀ d0, urls d0 = read_urls_from_config (config d0) →
                       terminated (default [] (config d0)) = true →
                       urls (add_urls pf d0 inputs)
                       = read_urls_from_config (config (add_urls pf d0 inputs)) ∧
                       terminated (default [] (config (add_urls pf d0 inputs))) = true).
  { clear d Ht. induction Hin as [|[a ok] inputs Hu _ IH]; intros d0 Hs Ht; [done|].
    cbn [add_urls foldl]. destruct (add_url_agrees pf d0 a ok Hu Hs Ht).
    by apply IH. }
  destruct (Hgen (setup_ui file)) as [Hs Ht']; [done..|].
  destruct (add_urls_lists pf inputs (setup_ui file)) as (Hc & _); cbn.
  - done.
  - apply NoDup_read_urls_from_config.
  - intros Hn. destruct file as [content|]; [|by apply elem_of_nil in Hn].
    apply elem_of_read_urls_from_config in Hn as [? _]. done.
  - subst d. by rewrite Hc.
Qed.

(** Two addresses, one of them twice, a cancellation and an empty text. *)
Lemma X13_dialog_agrees_witness :
  urls (add_urls Nt (setup_ui (Some (py "https://x.com" ++ [LF])))
          [(py "https://a.com", true); (py "https://b.org", false); ([], true);
           (py "https://x.com", true); (py "https://a.com", true)])
  = read_urls_from_config
      (config (add_urls Nt (setup_ui (Some (py "https://x.com" ++ [LF])))
          [(py "https://a.com", true); (py "https://b.org", false); ([], true);
           (py "https://x.com", true); (py "https://a.com", true)])).
Proof.
  refine (proj1 (X13_dialog_agrees_with_file Nt (Some (py "https://x.com" ++ [LF]))
    [(py "https://a.com", true); (py "https://b.org", false); ([], true);
     (py "https://x.com", true); (py "https://a.com", true)] eq_refl _)).
  rewrite !Forall_cons.
  split; [right; right; exact plain_a_com|].
  split; [by left|].
  split; [right; by left|].
  split; [|split; [right; right; exact plain_a_com|constructor]].
  right; right. split; [discriminate|]. split; [by vm_compute|].
  split; apply (bool_decide_unpack _); by vm_compute.
Defined.

(** * Further properties of the media file classification *)

Lemma rfind_from_not_elem_of p c : ∀ i, c ∉ p → rfind_from i p c = -1.
Proof.
  induction p as [|d p IH]; intros i Hnin; [done|].
  apply not_elem_of_cons in Hnin as [Hne Hnin]. simpl.
  rewrite IH by done. simpl. by rewrite (proj2 (N.eqb_neq d c)).
Qed.

Lemma rfind_from_last l c r : ∀ i,
  0 ≤ i → c ∉ r → rfind_from i (l ++ c :: r) c = i + Z.of_nat (length l).
Proof.
  induction l as [|d l IH]; intros i Hi Hnin.
  - cbn [app rfind_from length]. rewrite rfind_from_not_elem_of by done.
    cbn. rewrite N.eqb_refl. lia.
  - cbn [app rfind_from length]. rewrite IH by (done || lia).
    destruct (i + 1 + Z.of_nat (length l) >=? 0) eqn:Hge; [lia|].
    rewrite Z.geb_leb in Hge. apply Z.leb_gt in Hge. lia.
Qed.

Lemma rfind_from_bound p c : ∀ i,
  0 ≤ i →
  rfind_from i p c = -1 ∨ i ≤ rfind_from i p c < i + Z.of_nat (length p).
Proof.
  induction p as [|d p IH]; intros i Hi; [by left|].
  cbn [rfind_from length]. destruct (IH (i + 1)) as [->|Hb]; [lia| |].
  - cbn. destruct (d =? c)%N; [right|left]; lia.
  - destruct (rfind_from (i + 1) p c >=? 0) eqn:Hge.
    + right. lia.
    + rewrite Z.geb_leb in Hge. apply Z.leb_gt in Hge. lia.
Qed.

Lemma rfind_from_app_not_elem_of l r c : ∀ i,
  0 ≤ i → c ∉ r → rfind_from i (l ++ r) c = rfind_from i l c.
Proof.
  induction l as [|d l IH]; intros i Hi Hnin.
  - simpl. by apply rfind_from_not_elem_of.
  - simpl. by rewrite IH by (done || lia).
Qed.

Lemma file_name_not_sep pf name c :
  file_name pf name = true → is_sep pf c = true → c ∉ name.
Proof.
  unfold file_name. rewrite forallb_forall. intros Hall Hc Hin.
  apply list_elem_of_In, Hall in Hin. by rewrite Hc in Hin.
Qed.

Lemma dir_prefix_inv pf pre :
  dir_prefix pf pre = true →
  pre = [] ∨ ∃ pre' c, pre = pre' ++ [c] ∧ is_sep pf c = true.
Proof.
  unfold dir_prefix. destruct pre as [|c pre] using rev_ind; [by left|].
  rewrite last_snoc. right. by exists pre, c.
Qed.

(** The index of the last separator of a path [pre ++ name]. *)
Lemma rfind_sep pf pre name :
  dir_prefix pf pre = true → file_name pf name = true →
  match pf with
  | Posix => rfind (pre ++ name) 47
  | Nt => Z.max (rfind (pre ++ name) 92) (rfind (pre ++ name) 47)
  end = Z.of_nat (length pre) - 1.
Proof.
  intros Hpre Hname. unfold rfind.
  assert (H47 : is_sep pf 47 = true) by by destruct pf.
  pose proof (file_name_not_sep pf name 47 Hname H47) as Hn47.
  destruct (dir_prefix_inv pf pre Hpre) as [->|(pre' & c & -> & Hc)].
  - simpl. destruct pf.
    + by rewrite rfind_from_not_elem_of.
    + pose proof (file_name_not_sep Nt name 92 Hname eq_refl) as Hn92.
      by rewrite !rfind_from_not_elem_of.
  - rewrite <- app_assoc, length_app. cbn [app length].
    destruct pf; simpl in Hc.
    + apply N.eqb_eq in Hc as ->. rewrite rfind_from_last by done. lia.
    + pose proof (file_name_not_sep Nt name 92 Hname eq_refl) as Hn92.
      apply orb_true_iff in Hc as [->%N.eqb_eq | ->%N.eqb_eq].
      * rewrite rfind_from_last by done.
        change (pre' ++ 92%N :: name) with (pre' ++ [92%N] ++ name).
        rewrite app_assoc, !rfind_from_app_not_elem_of by (done || set_solver).
        destruct (rfind_from_bound pre' 47 0) as [->|?]; lia.
      * rewrite rfind_from_last by done.
        change (pre' ++ 47%N :: name) with (pre' ++ [47%N] ++ name).
        rewrite app_assoc, !rfind_from_app_not_elem_of by (done || set_solver).
        destruct (rfind_from_bound pre' 92 0) as [->|?]; lia.
Qed.

(** Without a dot in the file name, the last dot is in front of the last
    separator, if there is one at all. *)
Lemma rfind_dot_before pf pre name :
  dir_prefix pf pre = true → 46%N ∉ name →
  rfind (pre ++ name) 46 ≤ Z.of_nat (length pre) - 1.
Proof.
  intros Hpre Hdot. unfold rfind.
  rewrite rfind_from_app_not_elem_of by done.
  destruct (dir_prefix_inv pf pre Hpre) as [->|(pre' & c & -> & Hc)]; [done|].
  assert (46%N ∉ [c]).
  { intros Heq%list_elem_of_singleton. subst c. by destruct pf. }
  rewrite rfind_from_app_not_elem_of, length_app by done. cbn [length].
  destruct (rfind_from_bound pre' 46 0) as [->|?]; lia.
Qed.

Lemma splitext_no_dot pf pre name :
  dir_prefix pf pre = true → file_name pf name = true → 46%N ∉ name →
  splitext pf (pre ++ name) = (pre ++ name, []).
Proof.
  intros Hpre Hname Hdot.
  pose proof (rfind_sep pf pre name Hpre Hname) as Hsep.
  pose proof (rfind_dot_before pf pre name Hpre Hdot) as Hd.
  unfold splitext, genericpath_splitext. destruct pf; rewrite Hsep;
    (destruct (_ >? _) eqn:Hgt; [lia|done]).
Qed.

Lemma splitext_dot pf pre stem e :
  dir_prefix pf pre = true → file_name pf (stem ++ 46%N :: e) = true → 46%N ∉ e →
  splitext pf (pre ++ stem ++ 46%N :: e)
  = if has_non_dot stem then (pre ++ stem, 46%N :: e)
    else (pre ++ stem ++ 46%N :: e, []).
Proof.
  intros Hpre Hname Hdot.
  pose proof (rfind_sep pf pre _ Hpre Hname) as Hsep.
  assert (Hd : rfind (pre ++ stem ++ 46%N :: e) 46
               = Z.of_nat (length pre) + Z.of_nat (length stem)).
  { unfold rfind. rewrite app_assoc, rfind_from_last, length_app by done. lia. }
  assert (Hslice : slice (pre ++ stem ++ 46%N :: e)
                     (Z.of_nat (length pre) - 1 + 1)
                     (Z.of_nat (length pre) + Z.of_nat (length stem)) = stem).
  { unfold slice.
    replace (Z.to_nat (Z.of_nat (length pre) - 1 + 1)) with (length pre) by lia.
    replace (Z.to_nat _) with (length stem) by lia.
    by rewrite drop_app_length, take_app_length. }
  assert (Htake : take (Z.to_nat (Z.of_nat (length pre) + Z.of_nat (length stem)))
                    (pre ++ stem ++ 46%N :: e) = pre ++ stem).
  { replace (Z.to_nat _) with (length (pre ++ stem)) by (rewrite length_app; lia).
    by rewrite app_assoc, take_app_length. }
  assert (Hdrop : drop (Z.to_nat (Z.of_nat (length pre) + Z.of_nat (length stem)))
                    (pre ++ stem ++ 46%N :: e) = 46%N :: e).
  { replace (Z.to_nat _) with (length (pre ++ stem)) by (rewrite length_app; lia).
    by rewrite app_assoc, drop_app_length. }
  unfold splitext, genericpath_splitext, has_non_dot.
  destruct pf; rewrite Hsep, Hd, Hslice, Htake, Hdrop;
    (destruct (_ >? _) eqn:Hgt; [by destruct (existsb _ stem)|lia]).
Qed.

Lemma setup_media_no_ext pf ul p : (splitext pf p).2 = [] → setup_media pf ul p = None.
Proof.
  intros He. unfold setup_media. rewrite He.
  case_bool_decide; [done|]. by rewrite !bool_decide_false by by vm_compute.
Qed.

(** X14: which part of a path decides.  Let the path be a file name without
    separators behind nothing or behind a directory part that ends with a
    separator.  If the file name has no dot, or only dots in front of its
    last dot (as [".png"] has), the path has no extension and [setup_media]
    returns [None], whatever dots the directory part has.  Otherwise the
    extension is the last dot of the file name with what follows it, and
    [setup_media] decides by the lower-cased extension alone. *)
Theorem X14_extension_of_the_file_name pf ul pre name :
  dir_prefix pf pre = true → file_name pf name = true →
  (46%N ∉ name →
     splitext pf (pre ++ name) = (pre ++ name, []) ∧
     setup_media pf ul (pre ++ name) = None) ∧
  (∀ stem e, name = stem ++ 46%N :: e → 46%N ∉ e →
     (has_non_dot stem = false →
        splitext pf (pre ++ name) = (pre ++ name, []) ∧
        setup_media pf ul (pre ++ name) = None) ∧
     (has_non_dot stem = true →
        splitext pf (pre ++ name) = (pre ++ stem, 46%N :: e) ∧
        setup_media pf ul (pre ++ name)
        = if bool_decide (lower ul (46%N :: e) ∈ image_extensions)
          then Some (move ImageWidget_init 50 50)
          else if bool_decide (lower ul (46%N :: e) ∈ video_extensions)
          then Some (move VideoWidget_init 50 50) else None)).
Proof.
  intros Hpre Hname. split.
  - intros Hdot. pose proof (splitext_no_dot pf pre name Hpre Hname Hdot) as Hs.
    split; [done|]. apply setup_media_no_ext. by rewrite Hs.
  - intros stem e -> Hdot.
    pose proof (splitext_dot pf pre stem e Hpre Hname Hdot) as Hs.
    split; intros Hnd; rewrite Hnd in Hs.
    + split; [done|]. apply setup_media_no_ext. by rewrite Hs.
    + split; [done|]. unfold setup_media. rewrite Hs. cbn [snd].
      rewrite bool_decide_false; [done|]. by destruct pre, stem.
Qed.

(** A hidden file in a directory whose name has a dot. *)
Lemma X14_extension_of_the_file_name_witness :
  setup_media Posix id (py "/home/user/pics.d/" ++ py ".png") = None.
Proof.
  refine (proj2 (proj1 (proj2 (X14_extension_of_the_file_name Posix id
            (py "/home/user/pics.d/") (py ".png") eq_refl eq_refl)
            [] (py "png") eq_refl _) eq_refl)).
  apply (bool_decide_unpack _). by vm_compute.
Defined.

(** * Further properties of the shell *)

Lemma handle_well_formed w ev : well_formed w → well_formed (handle w ev).1.
Proof.
  intros (Hc & Hp & Hw & Hh).
  destruct (handle_tracks w ev Hc Hp) as [_ Hp'].
  destruct (handle_size w ev Hw Hh) as [Hw' Hh'].
  pose proof (handle_cls w ev) as Hcls.
  unfold well_formed. by rewrite Hcls.
Qed.

Lemma construct_well_formed c : concrete c → well_formed (construct c).
Proof. intros Hc. unfold well_formed. by destruct c. Qed.

Lemma setup_media_cases pf ul path :
  setup_media pf ul path = None ∨
  setup_media pf ul path = Some (move ImageWidget_init 50 50) ∨
  setup_media pf ul path = Some (move VideoWidget_init 50 50).
Proof.
  unfold setup_media. repeat case_bool_decide; auto.
Qed.

(** What a step of the shell leaves as it is, for one of the two windows. *)
Lemma shell_step_window (get : FullScreenApp → option widget) app e :
  get = media_window ∨ get = browser_window →
  (get app = None → get (shell_step app e) = None) ∧
  (∀ w, get app = Some w → well_formed w →
     ∃ w', get (shell_step app e) = Some w' ∧ cls w' = cls w ∧ well_formed w').
Proof.
  intros Hget. split.
  - intros Hn. destruct Hget as [-> | ->], e as [[]|[] ev]; simpl in *;
      rewrite ?Hn; try done; by destruct (browser_window app), (media_window app).
  - intros w Hw Hwf.
    assert (Hstay : ∃ w', Some w = Some w' ∧ cls w' = cls w ∧ well_formed w')
      by by exists w.
    assert (Hmove : ∀ ev, ∃ w', Some (handle w ev).1 = Some w' ∧
                                cls w' = cls w ∧ well_formed w').
    { intros ev. exists (handle w ev).1. split; [done|].
      split; [apply handle_cls|by apply handle_well_formed]. }
    destruct Hget as [-> | ->], e as [[]|[] ev]; simpl in *;
      repeat case_match; simplify_eq/=; rewrite ?Hw; simpl;
      first [apply Hstay | apply Hmove].
Qed.

Lemma shell_run_window (get : FullScreenApp → option widget) evs : ∀ app,
  get = media_window ∨ get = browser_window →
  (get app = None → get (foldl shell_step app evs) = None) ∧
  (∀ w, get app = Some w → well_formed w →
     ∃ w', get (foldl shell_step app evs) = Some w' ∧ cls w' = cls w ∧
           well_formed w').
Proof.
  induction evs as [|e evs IH]; intros app Hget.
  { split; [done|]. intros w Hw Hwf. by exists w. }
  destruct (shell_step_window get app e Hget) as [Hn Hs].
  destruct (IH (shell_step app e) Hget) as [Hn' Hs']. simpl.
  split; [by auto|]. intros w Hw Hwf.
  destruct (Hs w Hw Hwf) as (w1 & Hw1 & Hc1 & Hwf1).
  destruct (Hs' w1 Hw1 Hwf1) as (w2 & Hw2 & Hc2 & Hwf2).
  exists w2. by rewrite Hc2.
Qed.

Lemma FullScreenApp_init_windows pf ul path accepted :
  media_window (FullScreenApp_init pf ul path accepted) = setup_media pf ul path ∧
  browser_window (FullScreenApp_init pf ul path accepted) = setup_browser accepted.
Proof.
  unfold FullScreenApp_init, adjust_window_stack. cbn [media_window browser_window].
  by destruct (setup_media pf ul path), (setup_browser accepted).
Qed.

(** X15: the surfaces of the shell.  The constructor of the shell puts the
    media surface, if [setup_media] gave one, at (50,50), and the browser
    surface, which exists exactly if the address dialog was accepted, at
    (150,150).  No key and no pointer event creates or removes a surface or
    changes its class; after any such events each surface is at least 100
    wide and high and has its payload at (5, 5, width-10, height-10). *)
Theorem X15_surfaces_of_the_shell pf ul path accepted evs :
  let app0 := FullScreenApp_init pf ul path accepted in
  let app := foldl shell_step app0 evs in
  media_window app0 = setup_media pf ul path ∧
  (is_Some (browser_window app0) ↔ is_Some accepted) ∧
  (∀ w0, media_window app0 = Some w0 →
     x w0 = 50 ∧ y w0 = 50 ∧ (cls w0 = ImageWidget ∨ cls w0 = VideoWidget) ∧
     ∃ w, media_window app = Some w ∧ cls w = cls w0 ∧ well_formed w) ∧
  (∀ w0, browser_window app0 = Some w0 →
     x w0 = 150 ∧ y w0 = 150 ∧ cls w0 = BrowserWidget ∧
     ∃ w, browser_window app = Some w ∧ cls w = cls w0 ∧ well_formed w) ∧
  (media_window app0 = None → media_window app = None) ∧
  (browser_window app0 = None → browser_window app = None).
Proof.
  intros app0 app. subst app app0.
  destruct (FullScreenApp_init_windows pf ul path accepted) as [Hm Hb].
  set (app0 := FullScreenApp_init pf ul path accepted) in *.
  destruct (shell_run_window media_window evs app0) as [Hmn Hms]; [by left|].
  destruct (shell_run_window browser_window evs app0) as [Hbn Hbs]; [by right|].
  split; [done|]. split; [|split; [|split; [|done]]].
  - rewrite Hb. destruct accepted; simpl; rewrite !is_Some_alt; done.
  - intros w0 Hw0.
    assert (Hcase : w0 = move ImageWidget_init 50 50 ∨ w0 = move VideoWidget_init 50 50).
    { rewrite Hm in Hw0.
      destruct (setup_media_cases pf ul path) as [H|[H|H]]; rewrite H in Hw0;
        naive_solver. }
    assert (Hwf : well_formed w0) by by destruct Hcase as [-> | ->].
    split; [by destruct Hcase as [-> | ->]|].
    split; [by destruct Hcase as [-> | ->]|].
    split; [destruct Hcase as [-> | ->]; auto|]. by apply Hms.
  - intros w0 Hw0.
    assert (Hcase : w0 = move BrowserWidget_init 150 150).
    { rewrite Hb in Hw0. destruct accepted; naive_solver. }
    assert (Hwf : well_formed w0) by by subst w0.
    split; [by subst w0|]. split; [by subst w0|]. split; [by subst w0|].
    by apply Hbs.
Qed.

(** An image, an accepted dialog, a resize of the image and a reload. *)
Lemma X15_surfaces_of_the_shell_witness :
  ∃ w, media_window
         (foldl shell_step
            (FullScreenApp_init Posix id (py "/srv/wall.png") (Some (py "https://a.com")))
            [Pointer MediaSurface (Down (left_at 795 595 845 645));
             Pointer MediaSurface (Move (left_at 30 30 80 80));
             KeyPress Key_F5]) = Some w ∧
       cls w = cls (move ImageWidget_init 50 50) ∧ well_formed w.
Proof.
  refine (proj2 (proj2 (proj2 (proj1 (proj2 (proj2
    (X15_surfaces_of_the_shell Posix id (py "/srv/wall.png") (Some (py "https://a.com"))
       [Pointer MediaSurface (Down (left_at 795 595 845 645));
        Pointer MediaSurface (Move (left_at 30 30 80 80));
        KeyPress Key_F5]))) (move ImageWidget_init 50 50) _)))).
  by vm_compute.
Defined.

Lemma shell_step_keys app e :
  reloads (shell_step app e)
  = (reloads app
     + if is_F5 e && bool_decide (is_Some (browser_window app)) then 1 else 0)%nat ∧
  closed (shell_step app e) = closed app || is_F12 e.
Proof.
  destruct e as [[]|[] ev]; simpl; rewrite ?orb_false_r, ?orb_true_r.
  - split; [lia|done].
  - destruct (browser_window app); simpl; split; (lia || done).
  - split; [lia|done].
  - split; [lia|done].
  - split; [lia|done].
Qed.

(** X16: the two keys.  After any keys and pointer events the shell has
    reloaded the browser once for every F5, and not at all when there is
    no browser surface (F5 is then ignored); it is closed exactly if an F12
    was among the keys. *)
Theorem X16_keys pf ul path accepted evs :
  let app0 := FullScreenApp_init pf ul path accepted in
  let app := foldl shell_step app0 evs in
  reloads app
  = match accepted with
    | Some _ => length (filter (λ e, is_F5 e) evs)
    | None => 0%nat
    end ∧
  closed app = existsb is_F12 evs.
Proof.
  intros app0 app.
  assert (Hgen : ∀ a, reloads (foldl shell_step a evs)
                      = (reloads a
                         + if bool_decide (is_Some (browser_window a))
                           then length (filter (λ e, is_F5 e) evs) else 0)%nat ∧
                      closed (foldl shell_step a evs) = closed a || existsb is_F12 evs).
  { induction evs as [|e evs IH]; intros a.
    { simpl. rewrite orb_false_r. split; [|done]. case_bool_decide; lia. }
    destruct (shell_step_keys a e) as [Hr Hc].
    destruct (IH (shell_step a e)) as [Hr' Hc'].
    assert (Hb : bool_decide (is_Some (browser_window (shell_step a e)))
                 = bool_decide (is_Some (browser_window a))).
    { destruct (shell_step_window browser_window a e) as [Hn Hs]; [by right|].
      destruct (browser_window a) as [w|] eqn:Hw.
      - destruct e as [[]|[] ev]; simpl; by rewrite ?Hw.
      - by rewrite Hn. }
    cbn [foldl]. rewrite Hr', Hc', Hr, Hc, Hb. split.
    - rewrite filter_cons.
      destruct (is_F5 e), (bool_decide (is_Some (browser_window a))); simpl; lia.
    - simpl. by rewrite orb_assoc. }
  destruct (Hgen app0) as [Hr Hc]. subst app. rewrite Hr, Hc.
  destruct (FullScreenApp_init_windows pf ul path accepted) as [_ Hb].
  fold app0 in Hb. rewrite Hb. subst app0.
  unfold FullScreenApp_init, adjust_window_stack.
  destruct (setup_media pf ul path), accepted; by cbn.
Qed.

(** * Properties of the video player and of the browser address *)

Lemma video_step_log v e :
  player_calls (video_step v e) = player_calls v ++ calls_of e ∧
  printed (video_step v e) = printed v ++ lines_of e.
Proof.
  destruct e as [[]|msg|]; simpl; rewrite ?app_nil_r, <- ?app_assoc; done.
Qed.

Lemma video_run_log evs : ∀ v,
  player_calls (foldl video_step v evs) = player_calls v ++ (evs ≫= calls_of) ∧
  printed (foldl video_step v evs) = printed v ++ (evs ≫= lines_of).
Proof.
  induction evs as [|e evs IH]; intros v.
  { simpl. by rewrite !app_nil_r. }
  destruct (video_step_log v e) as [Hc Hp].
  destruct (IH (video_step v e)) as [Hc' Hp'].
  cbn [foldl].
  change ((e :: evs) ≫= calls_of) with (calls_of e ++ (evs ≫= calls_of)).
  change ((e :: evs) ≫= lines_of) with (lines_of e ++ (evs ≫= lines_of)).
  by rewrite Hc', Hp', Hc, Hp, <- !app_assoc.
Qed.

Lemma calls_of_run_plays evs :
  length (filter (λ c, is_Play c) (evs ≫= calls_of))
  = length (filter (λ e, is_EndOfMedia e) evs).
Proof.
  induction evs as [|e evs IH]; [done|].
  change ((e :: evs) ≫= calls_of) with (calls_of e ++ (evs ≫= calls_of)).
  rewrite filter_app, length_app, IH, filter_cons.
  by destruct e as [[]|msg|].
Qed.

Lemma calls_of_run evs :
  (Stop ∈ evs ≫= calls_of ↔ existsb is_Close evs = true) ∧
  (∀ pos, SetPosition pos ∈ evs ≫= calls_of → pos = 0) ∧
  (∀ path, SetSource path ∉ evs ≫= calls_of).
Proof.
  induction evs as [|e evs (IH1 & IH2 & IH3)].
  { cbn. split; [|split]; try done.
    - split; [by intros ?%elem_of_nil|done].
    - by intros pos ?%elem_of_nil.
    - intros path. apply not_elem_of_nil. }
  cbn [existsb].
  change ((e :: evs) ≫= calls_of) with (calls_of e ++ (evs ≫= calls_of)).
  split; [|split].
  - rewrite elem_of_app, IH1, orb_true_iff.
    destruct e as [[]|msg|]; cbn; set_solver.
  - intros pos [Hin|Hin]%elem_of_app; [|by apply IH2].
    destruct e as [[]|msg|]; cbn in Hin; set_solver.
  - intros path [Hin|Hin]%elem_of_app; [|by apply (IH3 path)].
    destruct e as [[]|msg|]; cbn in Hin; set_solver.
Qed.

(** X17: the player of a video surface.  Over its life the surface calls
    the player as follows: at construction it sets the outputs and, for a
    path that is not empty, sets the source to the path and plays; for every
    end-of-media status it seeks to 0 and plays; on closing it stops.
    Nothing else reaches the player: it is stopped only by closing, it is
    never sought to a position other than 0, its source is the path given
    at construction and no other, the number of [play] calls is that of
    the end-of-media statuses plus one for the start, and an error only
    prints its message behind ["Media error: "]. *)
Theorem X17_player_of_a_video_surface video_path evs :
  let v := foldl video_step (VideoWidget_player_init video_path) evs in
  player_calls v
  = player_calls (VideoWidget_player_init video_path) ++ (evs ≫= calls_of) ∧
  printed v = evs ≫= lines_of ∧
  (Stop ∈ player_calls v ↔ existsb is_Close evs = true) ∧
  (∀ pos, SetPosition pos ∈ player_calls v → pos = 0) ∧
  (∀ path, SetSource path ∈ player_calls v → path = video_path ∧ video_path ≠ []) ∧
  length (filter (λ c, is_Play c) (player_calls v))
  = ((if bool_decide (video_path ≠ []) then 1 else 0)
     + length (filter (λ e, is_EndOfMedia e) evs))%nat.
Proof.
  intros v. subst v.
  destruct (video_run_log evs (VideoWidget_player_init video_path)) as [Hc Hp].
  destruct (calls_of_run evs) as (H1 & H2 & H3).
  pose proof (calls_of_run_plays evs) as H4.
  rewrite Hc, Hp. split; [done|].
  split; [unfold VideoWidget_player_init; by case_bool_decide|].
  assert (Hplays : length (filter (λ c, is_Play c)
                             (player_calls (VideoWidget_player_init video_path)))
                   = if bool_decide (video_path ≠ []) then 1%nat else 0%nat).
  { unfold VideoWidget_player_init. by case_bool_decide. }
  rewrite filter_app, length_app, H4, Hplays.
  unfold VideoWidget_player_init.
  case_bool_decide as Hpath; cbn [load_video call player_calls app].
  - split; [|split; [|split]]; [| | |done].
    + rewrite <- H1. set_solver.
    + intros pos. rewrite !elem_of_cons. naive_solver.
    + intros path. rewrite !elem_of_cons. intros [?|[?|[?|[?|Hin]]]]; try done.
      * by simplify_eq.
      * by apply H3 in Hin.
  - split; [|split; [|split]]; [| | |done].
    + rewrite <- H1. set_solver.
    + intros pos. rewrite !elem_of_cons. naive_solver.
    + intros path. rewrite !elem_of_cons. intros [?|[?|Hin]]; try done.
      by apply H3 in Hin.
Qed.

(** A video that ends twice, fails once and is closed. *)
Lemma X17_player_witness :
  player_calls
    (foldl video_step (VideoWidget_player_init (py "/srv/clip.mp4"))
       [MediaStatusChanged LoadedMedia; MediaStatusChanged EndOfMedia;
        ErrorOccurred (py "decode"); MediaStatusChanged EndOfMedia; Close])
  = [SetAudioOutput; SetVideoOutput; SetSource (py "/srv/clip.mp4"); Play;
     SetPosition 0; Play; SetPosition 0; Play; Stop].
Proof.
  exact (proj1 (X17_player_of_a_video_surface (py "/srv/clip.mp4")
    [MediaStatusChanged LoadedMedia; MediaStatusChanged EndOfMedia;
     ErrorOccurred (py "decode"); MediaStatusChanged EndOfMedia; Close])).
Defined.

(** X18: the address of the browser surface.  With the items that the
    combo box has after [setup_ui] and any results of the input dialog
    handed to [add_url], the address that the browser surface loads is the
    current item of the combo box, which is never empty, and it is
    ["https://www.google.com"] when there is no current item, as when the
    list is empty. *)
Theorem X18_address_of_the_browser pf file inputs current :
  let d := add_urls pf (setup_ui file) inputs in
  let text := currentText (combobox_items d) current in
  browser_url (Some text) ≠ [] ∧
  (∀ i u, current = Some i → combobox_items d !! i = Some u →
     u ≠ [] ∧ u ∈ urls d ∧ browser_url (Some text) = u) ∧
  (text = [] → browser_url (Some text) = default_url) ∧
  (combobox_items d = [] → browser_url (Some text) = default_url).
Proof.
  intros d text.
  destruct (add_urls_lists pf inputs (setup_ui file)) as (Hc & _ & Hne & _); cbn.
  { done. }
  { apply NoDup_read_urls_from_config. }
  { intros Hn. destruct file as [content|]; [|by apply elem_of_nil in Hn].
    apply elem_of_read_urls_from_config in Hn as [? _]. done. }
  fold d in Hc, Hne.
  split; [|split; [|split]].
  - unfold browser_url. by case_bool_decide.
  - intros i u -> Hu. subst text. unfold currentText. cbn. rewrite Hu. cbn.
    assert (Hin : u ∈ urls d).
    { rewrite <- Hc. by apply list_elem_of_lookup_2 in Hu. }
    assert (u ≠ []) by by intros ->.
    split; [done|]. split; [done|]. unfold browser_url. by rewrite bool_decide_true.
  - intros ->. done.
  - intros Hnil. subst text. rewrite Hnil. unfold currentText.
    by destruct current as [i|]; cbn.
Qed.

(** The second of two addresses is current. *)
Lemma X18_address_of_the_browser_witness :
  browser_url
    (Some (currentText
             (combobox_items
                (add_urls Posix (setup_ui (Some (py "https://x.com" ++ [LF])))
                   [(py "https://a.com", true)])) (Some 1%nat)))
  = py "https://a.com".
Proof.
  refine (proj2 (proj2 (proj1 (proj2
    (X18_address_of_the_browser Posix (Some (py "https://x.com" ++ [LF]))
       [(py "https://a.com", true)] (Some 1%nat)))
    1%nat (py "https://a.com") eq_refl _))).
  by vm_compute.
Defined.

(** * A release ends every interaction *)

(** X6: on a browser, image or video surface a release ends whatever went
    before: after any sequence of pointer events, also one in which presses
    have set both flags, a release leaves the surface Idle, and events
    without a press with the left button that follow leave it as it is. *)
Theorem X6_release_ends_every_interaction c evs e rest :
  concrete c →
  no_left_press rest = true →
  let r := run_fresh c (evs ++ [Up e]) in
  r.2 = None ∧ dragging r.1 = false ∧ resizing r.1 = false ∧
  interactionState r.1 = Idle ∧
  run_fresh c ((evs ++ [Up e]) ++ rest) = r.
Proof.
  intros Hc Hrest r.
  destruct (run_fresh_no_exception c evs Hc) as [Hnone _].
  assert (Hr : r = (mouseReleaseEvent (run_fresh c evs).1 e, None)).
  { subst r. unfold run_fresh in *. rewrite run_app.
    destruct (run (construct c) evs) as [w o]. simpl in Hnone. by subst o. }
  assert (Hflags : dragging r.1 = false ∧ resizing r.1 = false) by by rewrite Hr.
  destruct Hflags as [Hd Hres].
  split; [by rewrite Hr|]. split; [done|]. split; [done|].
  split; [unfold interactionState; by rewrite Hd, Hres|].
  unfold run_fresh in *. rewrite run_app.
  destruct (run (construct c) (evs ++ [Up e])) as [w o] eqn:Hrun.
  subst r. simpl in *. injection Hr as -> ->.
  by apply run_no_left_press.
Qed.

(** Two presses that set both flags, a release and some hovering. *)
Lemma X6_release_witness :
  interactionState
    (run_fresh ImageWidget
       ([Down (left_at 400 300 450 350); Down (left_at 795 595 845 645)]
        ++ [Up (left_at 795 595 845 645)])).1 = Idle.
Proof.
  refine (proj1 (proj2 (proj2 (proj2
    (X6_release_ends_every_interaction ImageWidget
       [Down (left_at 400 300 450 350); Down (left_at 795 595 845 645)]
       (left_at 795 595 845 645) [Move (left_at 1 1 51 51)] _ eq_refl))))).
  unfold concrete. discriminate.
Defined.
